(** * Contact form of the portfolio site: client script and server endpoint

    The development embeds the code of the repository:

    - the [POST /api/contact] endpoint of the backend guide (the Express
      example: rate limiter, validator chain, request handler), next to
      the reading that the specification gives of a submission,
    - the submit handler of the contact form in [assets/js/main.js]
      ([initContactForm], [showFormMessage]), and
    - the other listeners of that script (navigation, scrolling, resume
      button, scroll animations, [debounce]).

    Part I holds the definitions, Part II the theorems. *)

From Stdlib Require Import ZArith QArith Ascii String Lia.
From stdpp Require Import gmap strings list.

Local Open Scope string_scope.
Local Open Scope list_scope.

(* ===================================================================== *)
(** * Part I: definitions                                                *)
(* ===================================================================== *)

(** ** JavaScript strings

    A string is a sequence of code units; the model keeps the code units
    below 256 (Stdlib's [string] over [ascii]). *)
Module Js.

(** The characters matched by [\s] and stripped by [String.prototype.trim]
    (and by validator's [trim] without a character list): TAB, LF, VT, FF,
    CR, SPACE and NBSP are the ones below 256. *)
Definition isSpace (c : ascii) : bool :=
  let n := N_of_ascii c in
  ((9 <=? n) && (n <=? 13) || (n =? 32) || (n =? 160))%N.

Fixpoint trimStart (s : string) : string :=
  match s with
  | EmptyString => EmptyString
  | String c s' => if isSpace c then trimStart s' else s
  end.

Fixpoint trimEnd (s : string) : string :=
  match s with
  | EmptyString => EmptyString
  | String c s' =>
      match trimEnd s' with
      | EmptyString => if isSpace c then EmptyString else String c EmptyString
      | r => String c r
      end
  end.

(** [str.trim()] *)
Definition trim (s : string) : string := trimEnd (trimStart s).

(** [!str] on a string: only the empty string is falsy. *)
Definition isEmpty (s : string) : bool :=
  match s with EmptyString => true | _ => false end.

(** [s.toLowerCase()] on the letters A-Z. *)
Definition lowerChar (c : ascii) : ascii :=
  let n := N_of_ascii c in
  if ((65 <=? n) && (n <=? 90))%N then ascii_of_N (n + 32) else c.

Fixpoint toLowerCase (s : string) : string :=
  match s with
  | EmptyString => EmptyString
  | String c s' => String (lowerChar c) (toLowerCase s')
  end.

(** *** Regular expressions

    The fragment of the regular expression syntax that the script uses:
    character classes, concatenation and [+], matched against the whole
    string (the pattern is anchored by [^] and [$]). Matching is by
    derivatives. *)
Inductive regex : Type :=
| Void : regex                          (* matches nothing *)
| Eps : regex                           (* matches the empty string *)
| Class : (ascii -> bool) -> regex      (* one character of a class *)
| Seq : regex -> regex -> regex
| Alt : regex -> regex -> regex
| Star : regex -> regex.

(** [r+] *)
Definition Plus (r : regex) : regex := Seq r (Star r).

Fixpoint nullable (r : regex) : bool :=
  match r with
  | Void => false
  | Eps => true
  | Class _ => false
  | Seq r1 r2 => nullable r1 && nullable r2
  | Alt r1 r2 => nullable r1 || nullable r2
  | Star _ => true
  end.

Fixpoint deriv (c : ascii) (r : regex) : regex :=
  match r with
  | Void => Void
  | Eps => Void
  | Class p => if p c then Eps else Void
  | Seq r1 r2 =>
      if nullable r1
      then Alt (Seq (deriv c r1) r2) (deriv c r2)
      else Seq (deriv c r1) r2
  | Alt r1 r2 => Alt (deriv c r1) (deriv c r2)
  | Star r1 => Seq (deriv c r1) (Star r1)
  end.

(** [regex.test(s)] for an anchored pattern *)
Fixpoint test (r : regex) (s : string) : bool :=
  match s with
  | EmptyString => nullable r
  | String c s' => test (deriv c r) s'
  end.

(** The declarative reading of a pattern, used to check the matcher. *)
Inductive Matches : regex -> string -> Prop :=
| MEps : Matches Eps EmptyString
| MClass p c : p c = true -> Matches (Class p) (String c EmptyString)
| MSeq r1 r2 s1 s2 :
    Matches r1 s1 -> Matches r2 s2 -> Matches (Seq r1 r2) (s1 +:+ s2)
| MAltL r1 r2 s : Matches r1 s -> Matches (Alt r1 r2) s
| MAltR r1 r2 s : Matches r2 s -> Matches (Alt r1 r2) s
| MStarNil r : Matches (Star r) EmptyString
| MStarCons r s1 s2 :
    Matches r s1 -> Matches (Star r) s2 -> Matches (Star r) (s1 +:+ s2).

(** [[^\s@]] *)
Definition notSpaceAt (c : ascii) : bool :=
  negb (isSpace c) && negb (Ascii.eqb c "@"%char).

Definition isChar (d : ascii) (c : ascii) : bool := Ascii.eqb c d.

(** Every character of the string is in the class. *)
Fixpoint every (p : ascii -> bool) (s : string) : bool :=
  match s with
  | EmptyString => true
  | String c s' => p c && every p s'
  end.

End Js.

(** ** The server: [POST /api/contact]

    [app.post('/api/contact', limiter, [ ...validators ], handler)]: the
    middleware run in this order, and each one either answers the request
    or passes it on. *)
Module Server.

(** [req.body]: the parsed JSON object, a map from keys to text. A key the
    client did not send has no entry. *)
Abbreviation Body := (gmap string string).

(** An entry of [validationResult(req).array()]: the field and the reason
    (the library's entries also repeat the value and its location). *)
Record FieldError := mkFieldError { path : string; msg : string }.

(** The JSON bodies the endpoint answers with. *)
Module Res.
Record t := mk {
  success : bool;
  message : string;
  errors : option (list FieldError);
  retryAfter : option Z
}.
End Res.

Record Response := mkResponse { status : Z; json : Res.t }.

(** *** Rate limiting *)

(** What a limiter does with a request: it calls the next middleware, or
    it answers the request itself with 429. *)
Inductive Outcome : Type :=
| Next : Outcome
| Blocked (retryAfter : Z) : Outcome.

Module RateLimit.

(** [rateLimit({ windowMs: 60 * 60 * 1000, max: 5 })] *)
Definition windowMs : Z := (60 * 60 * 1000)%Z.
Definition max : nat := 5.

(** The counted requests of every source address: the times (in
    milliseconds) at which they were counted, oldest first. *)
Abbreviation Store := (gmap string (list Z)).

(** The counted requests that have not aged out of the window that
    ends at [now]. *)
Definition live (now : Z) (log : list Z) : list Z :=
  filter (λ ts, (now < ts + windowMs)%Z) log.

(** The count of a source address in the window that ends at [now]. *)
Definition count (st : Store) (addr : string) (now : Z) : nat :=
  length (live now (st !!! addr)).

(** The oldest counted request of the window that ends at [now]. *)
Definition windowStart (st : Store) (addr : string) (now : Z) : option Z :=
  head (live now (st !!! addr)).

(** Seconds, rounded up, until the oldest counted request expires. *)
Definition retryAfterSeconds (now : Z) (log : list Z) : Z :=
  match log with
  | [] => 0%Z
  | oldest :: _ => ((oldest + windowMs - now + 999) / 1000)%Z
  end.

(** Modelled from the spec: the middleware [limiter] that
    [rateLimit(...)] of express-rate-limit returns is a library function
    and not part of the source. Its model follows the rolling window of
    the specification: look up the window of the source address, treat
    the counted requests older than the window as expired, reject when
    the count is already at the ceiling, with the seconds until the
    oldest counted request expires, and count the request otherwise. *)
Definition limiter (st : Store) (addr : string) (now : Z) : Store * Outcome :=
  let log := live now (st !!! addr) in
  if decide (max ≤ length log)%nat
  then (<[addr := log]> st, Blocked (retryAfterSeconds now log))
  else (<[addr := log ++ [now]]> st, Next).

(** A store whose windows hold no more than the ceiling. *)
Definition bounded (st : Store) : Prop :=
  ∀ a : string, (length (st !!! a) ≤ max)%nat.

End RateLimit.

(** *** Notification channel *)

(** [const { name, email, subject, message } = req.body] *)
Record Submission := mkSubmission {
  name : string; email : string; subject : string; message : string
}.

Inductive Delivery : Type :=
| DeliveryReceipt : Delivery
| DeliveryError (cause : string) : Delivery.

(** The channel is an external collaborator: what it answers to each
    attempt (numbered from 0) to deliver a submission. *)
Abbreviation Channel := (Submission → nat → Delivery).

(** Modelled from the spec: the source leaves the dispatch as a comment
    in the [try] block (email sending logic). Its model is the bounded
    retry of the specification: attempts are made until one is delivered
    or the retries are used up, and the last error is then raised. *)
Fixpoint sendWithRetry (attempt : nat → Delivery) (i : nat) (retriesLeft : nat)
  : Delivery :=
  match attempt i with
  | DeliveryReceipt => DeliveryReceipt
  | DeliveryError e =>
      match retriesLeft with
      | O => DeliveryError e
      | S k => sendWithRetry attempt (S i) k
      end
  end.

(** *** Validator chains *)

(** A link of a chain: a sanitizer rewrites the value, a validator
    checks it. *)
Inductive Step : Type :=
| Sanitizer (f : string → string) : Step
| Validator (p : string → bool) : Step.

Record ValidationChain := mkChain { field : string; steps : list Step }.

(** [body(field)] *)
Definition body (f : string) : ValidationChain := mkChain f [].
Definition andThen (c : ValidationChain) (s : Step) : ValidationChain :=
  mkChain (field c) (steps c ++ [s]).

(** The validators and sanitizers work on the text of a field; a missing
    field reads as the empty text. *)
Definition toString (v : option string) : string := default "" v.

(** [isLength({ min, max })] *)
Definition isLength (min max : nat) (s : string) : bool :=
  (min <=? String.length s)%nat && (String.length s <=? max)%nat.

(** What a validator adds to the errors of the request. *)
Definition check (f : string) (ok : bool) : list FieldError :=
  if ok then [] else [mkFieldError f "Invalid value"].

(** The links run in order on the current value; every validator that
    fails adds one error and the chain goes on. *)
Fixpoint runSteps (f : string) (ss : list Step) (v : string)
  : string * list FieldError :=
  match ss with
  | [] => (v, [])
  | Sanitizer g :: ss' => runSteps f ss' (g v)
  | Validator p :: ss' =>
      let '(v', es) := runSteps f ss' v in
      (v', check f (p v) ++ es)
  end.

(** A chain reads its field, runs its links and writes the sanitized
    value back to [req.body]. *)
Definition runChain (b : Body) (c : ValidationChain) : Body * list FieldError :=
  let '(v, es) := runSteps (field c) (steps c) (toString (b !! field c)) in
  (<[field c := v]> b, es).

(** The chains of a route run one after the other, all of them; the
    errors accumulate in the request. *)
Fixpoint runChains (cs : list ValidationChain) (b : Body)
  : Body * list FieldError :=
  match cs with
  | [] => (b, [])
  | c :: cs' =>
      let '(b1, es1) := runChain b c in
      let '(b2, es2) := runChains cs' b1 in
      (b2, es1 ++ es2)
  end.

Record Request := mkRequest {
  ip : string;           (* the source address, from the transport *)
  receivedAt : Z;        (* time of arrival, in milliseconds *)
  reqBody : Body;
  channel : Channel
}.

Section Endpoint.

(** [isEmail] and [normalizeEmail] of validator.js are library
    functions and not part of the source. *)
Variable isEmail : string → bool.
Variable normalizeEmail : string → string.
(** The bound of the retry policy: retries after the first attempt. *)
Variable retries : nat.
(** The limiter that [rateLimit(...)] returns is a middleware of a
    library: it keeps a state of its own and decides on the source address
    and the time of the request. *)
Variable State : Type.
Variable limiter : State → string → Z → State * Outcome.

(** The array of validators of the route. *)
Definition validators : list ValidationChain :=
  [ andThen (andThen (body "name") (Sanitizer Js.trim))
            (Validator (isLength 2 100));
    andThen (andThen (body "email") (Validator isEmail))
            (Sanitizer normalizeEmail);
    andThen (andThen (body "subject") (Sanitizer Js.trim))
            (Validator (isLength 5 200));
    andThen (andThen (body "message") (Sanitizer Js.trim))
            (Validator (isLength 10 2000)) ].

(** [req.body] after the chains have run. *)
Definition sanitize (b : Body) : Body := fst (runChains validators b).

(** [validationResult(req).array()] *)
Definition validationResult (b : Body) : list FieldError :=
  snd (runChains validators b).

Definition destructure (b : Body) : Submission :=
  mkSubmission (toString (b !! "name")) (toString (b !! "email"))
               (toString (b !! "subject")) (toString (b !! "message")).

Definition validationError (es : list FieldError) : Response :=
  mkResponse 400 (Res.mk false "Validation error" (Some es) None).

Definition messageSent : Response :=
  mkResponse 200 (Res.mk true "Message sent successfully" None None).

Definition errorSending : Response :=
  mkResponse 500 (Res.mk false "Error sending message" None None).

(** Modelled from the spec: the 429 answer is written by the limiter
    of the library; its body is the one of the API specification. *)
Definition tooManyRequests (seconds : Z) : Response :=
  mkResponse 429
    (Res.mk false "Too many requests. Please try again later." None
            (Some seconds)).

(** The request handler, the last function of the route. *)
Definition handler (b : Body) (es : list FieldError) (ch : Channel) : Response :=
  match es with
  | _ :: _ => validationError es
  | [] =>
      match sendWithRetry (ch (destructure b)) 0 retries with
      | DeliveryReceipt => messageSent
      | DeliveryError _ => errorSending
      end
  end.

(** The route: limiter, validators, handler. *)
Definition postContact (st : State) (r : Request) : State * Response :=
  match limiter st (ip r) (receivedAt r) with
  | (st', Blocked seconds) => (st', tooManyRequests seconds)
  | (st', Next) =>
      let '(b, es) := runChains validators (reqBody r) in
      (st', handler b es (channel r))
  end.


(** The request passes the limiter. *)
Definition admitted (st : State) (r : Request) : Prop :=
  snd (limiter st (ip r) (receivedAt r)) = Next.

(** Every attempt that the retry policy allows fails. *)
Definition allAttemptsFail (r : Request) : Prop :=
  ∀ i, (i ≤ retries)%nat →
       ∃ e, channel r (destructure (sanitize (reqBody r))) i = DeliveryError e.

(** The server handles the requests one after the other; the history
    pairs every request with its answer, oldest first. *)
Fixpoint serve (st : State) (rs : list Request)
  : State * list (Request * Response) :=
  match rs with
  | [] => (st, [])
  | r :: rs' =>
      let '(st1, res) := postContact st r in
      let '(st2, h) := serve st1 rs' in
      (st2, (r, res) :: h)
  end.

(** *** Histories *)

(** What the route answers to a request that the limiter admits. *)
Definition handled (r : Request) : Response :=
  handler (sanitize (reqBody r)) (validationResult (reqBody r)) (channel r).

(** The dispatch of the request succeeds within the retry policy. *)
Definition dispatched (r : Request) : Prop :=
  sendWithRetry (channel r (destructure (sanitize (reqBody r)))) 0 retries
  = DeliveryReceipt.

(** The part of a history that belongs to one source address. *)
Definition requestsOf (a : string) (rs : list Request) : list Request :=
  filter (λ r, ip r = a) rs.
Definition answersTo (a : string) (h : list (Request * Response))
  : list Response :=
  snd <$> filter (λ x, ip (fst x) = a) h.

(** The times of the requests of an address that were counted, that is,
    not answered with 429. *)
Definition counted (a : string) (h : list (Request * Response)) : list Z :=
  (λ x, receivedAt (fst x))
    <$> filter (λ x, ip (fst x) = a ∧ status (snd x) ≠ 429%Z) h.

(** The rolling window that ends at [t]. *)
Definition inWindow (t : Z) (ts : Z) : Prop :=
  (t - RateLimit.windowMs < ts ≤ t)%Z.

#[global] Instance inWindow_dec (t ts : Z) : Decision (inWindow t ts).
Proof. unfold inWindow. apply _. Defined.

(** The requests arrive in the order of their times. *)
Fixpoint chronological (rs : list Request) : Prop :=
  match rs with
  | [] => True
  | r :: rs' =>
      Forall (λ r', (receivedAt r ≤ receivedAt r')%Z) rs' ∧ chronological rs'
  end.

(** The answers to the requests of one address that fall into one window
    in which [k] of its requests are already counted: the requests are
    handled until the count is at the ceiling, and rejected from then on
    with a positive number of seconds. *)
Fixpoint answered (k : nat) (rs : list Request) (res : list Response) : Prop :=
  match rs, res with
  | [], [] => True
  | r :: rs', x :: res' =>
      if decide (k < RateLimit.max)%nat
      then x = handled r ∧ answered (S k) rs' res'
      else (∃ s, (0 < s)%Z ∧ x = tooManyRequests s) ∧ answered k rs' res'
  | _, _ => False
  end.

End Endpoint.

Arguments postContact _ _ _ {State} _ _ _.
Arguments admitted {State} _ _ _.
Arguments serve _ _ _ {State} _ _ _.

End Server.

(** ** The submission as the specification reads it

    The definitions of this module follow the words of the specification
    (its data model and the steps of [submit]), not the source: they say
    in which fields a payload offends, to be compared with the errors
    that the route reports. A payload is a map from keys to text, so the
    values that are present are text. *)
Module Spec.
Import Server.






(** Modelled from the spec: [normalizeEmail] is a sanitizer of the
    validator library and not part of the source; the specification has
    the email normalized to lowercase. *)
Definition normalizeEmail (s : string) : string := Js.toLowerCase s.

Section Constraints.

(** The stripping of markup and the address grammar (with its bound of
    254 characters on the address) are parameters of the reading. *)
Variable stripMarkup : string → string.
Variable addressGrammar : string → bool.






End Constraints.

End Spec.

(** ** The client: the contact form of [assets/js/main.js] *)
Module Client.

(** The four fields of the form, as the keys of [formData]. *)
Record Fields (A : Type) := mkFields {
  name : A; email : A; subject : A; message : A
}.
Arguments mkFields {A} _ _ _ _.
Arguments name {A} _.
Arguments email {A} _.
Arguments subject {A} _.
Arguments message {A} _.

(** *** The page *)

(** A text control: its current value and the value [reset()] restores. *)
Record Input := mkInput { value : string; defaultValue : string }.

(** The element [#formMessage]. *)
Record MessageBox := mkMessageBox {
  textContent : string; className : string; display : string
}.

(** The submit button of the form and the text of its [.btn-text]. *)
Record Button := mkButton { disabled : bool; btnText : string }.

#[local] Set Warnings "-register-all".

(** Values of the language, as far as a parsed response body has them. *)
Inductive JsValue : Type :=
| JUndefined : JsValue
| JNull : JsValue
| JBool (b : bool) : JsValue
| JNum (n : Z) : JsValue
| JStr (s : string) : JsValue
| JArr (items : list JsValue) : JsValue
| JObj (props : list (string * JsValue)) : JsValue.

Inductive JsError : Type :=
| NetworkError (cause : string) : JsError   (* [fetch] rejects *)
| SyntaxError (cause : string) : JsError    (* [response.json()] rejects *)
| TypeError : JsError                       (* property read on [null] *)
| Error (msg : JsValue) : JsError.          (* [new Error(msg)] *)

(** [fetch(url, { method, headers, body: JSON.stringify(formData) })] *)
Record FetchCall := mkFetchCall {
  url : string;
  method : string;
  headers : list (string * string);
  body : Fields string
}.

(** What the server answered: [response.ok] and how [response.json()]
    settles. *)
Record Response := mkResponse { ok : bool; json : JsError + JsValue }.

(** How [fetch] settles. *)
Inductive FetchResult : Type :=
| Rejected (e : JsError) : FetchResult
| Resolved (r : Response) : FetchResult.

(** [setTimeout(callback, delay)]; the script has one callback, the one
    that hides the message box. *)
Inductive Callback : Type := HideFormMessage.
Record Timer := mkTimer { callback : Callback; delay : nat }.

(** The part of the document and of the environment that the submit
    handler reads and writes. The four controls and the submit button are
    read without a check and so belong to every page the handler runs on;
    [#formMessage] is checked before use and may be absent. *)
Record Page := mkPage {
  inputs : Fields Input;
  formMessage : option MessageBox;
  submitBtn : Button;
  network : list FetchCall;              (* the calls of [fetch], in order *)
  console : list (string * JsError);     (* [console.error], in order *)
  timers : list Timer
}.

Definition setInputs (i : Fields Input) (p : Page) : Page :=
  mkPage i (formMessage p) (submitBtn p) (network p) (console p) (timers p).
Definition setFormMessage (m : option MessageBox) (p : Page) : Page :=
  mkPage (inputs p) m (submitBtn p) (network p) (console p) (timers p).
Definition setSubmitBtn (b : Button) (p : Page) : Page :=
  mkPage (inputs p) (formMessage p) b (network p) (console p) (timers p).
Definition setNetwork (n : list FetchCall) (p : Page) : Page :=
  mkPage (inputs p) (formMessage p) (submitBtn p) n (console p) (timers p).
Definition setConsole (c : list (string * JsError)) (p : Page) : Page :=
  mkPage (inputs p) (formMessage p) (submitBtn p) (network p) c (timers p).
Definition setTimers (t : list Timer) (p : Page) : Page :=
  mkPage (inputs p) (formMessage p) (submitBtn p) (network p) (console p) t.

(** *** [showFormMessage(message, type)] *)
Definition showFormMessage (text type : string) (p : Page) : Page :=
  match formMessage p with
  | Some _ =>
      setTimers (timers p ++ [mkTimer HideFormMessage 5000])
        (setFormMessage
           (Some (mkMessageBox text ("form-message " +:+ type) "block")) p)
  | None => p
  end.

(** The callback of the timer: [formMessage.style.display = 'none']. *)
Definition hideFormMessage (p : Page) : Page :=
  match formMessage p with
  | Some m => setFormMessage (Some (mkMessageBox (textContent m) (className m) "none")) p
  | None => p
  end.

(** [contactForm.reset()] *)
Definition resetInput (i : Input) : Input :=
  mkInput (defaultValue i) (defaultValue i).
Definition reset (p : Page) : Page :=
  let i := inputs p in
  setInputs (mkFields (resetInput (name i)) (resetInput (email i))
                      (resetInput (subject i)) (resetInput (message i))) p.

(** [fetch(...)]: the call goes out. *)
Definition fetch (c : FetchCall) (p : Page) : Page :=
  setNetwork (network p ++ [c]) p.

Definition consoleError (label : string) (e : JsError) (p : Page) : Page :=
  setConsole (console p ++ [(label, e)]) p.

(** *** The submit handler of [initContactForm] *)

(** [/^[^\s@]+@[^\s@]+\.[^\s@]+$/] *)
Definition emailRegex : Js.regex :=
  Js.Seq (Js.Plus (Js.Class Js.notSpaceAt))
    (Js.Seq (Js.Class (Js.isChar "@"))
       (Js.Seq (Js.Plus (Js.Class Js.notSpaceAt))
          (Js.Seq (Js.Class (Js.isChar "."))
             (Js.Plus (Js.Class Js.notSpaceAt))))).

(** [document.getElementById(id).value.trim()] for the four controls *)
Definition readForm (p : Page) : Fields string :=
  let i := inputs p in
  mkFields (Js.trim (value (name i))) (Js.trim (value (email i)))
           (Js.trim (value (subject i))) (Js.trim (value (message i))).

(** [!formData.name || !formData.email || !formData.subject ||
    !formData.message] *)
Definition someFieldEmpty (d : Fields string) : bool :=
  Js.isEmpty (name d) || Js.isEmpty (email d) ||
  Js.isEmpty (subject d) || Js.isEmpty (message d).

(** The variables of the handler that live across the [await]. *)
Record Suspended := mkSuspended { originalBtnText : string }.

(** [submitBtn.disabled = true] and the label [Sending...] *)
Definition disableSubmit (p : Page) : Page :=
  setSubmitBtn (mkButton true "Sending...") p.

Definition contactCall (d : Fields string) : FetchCall :=
  mkFetchCall "/api/contact" "POST"
              [("Content-Type", "application/json")] d.

(** The handler from the event to its first [await]: it either returns
    (no continuation) or is suspended on the call of [fetch]. Its first
    statement, [e.preventDefault()], cancels the browser's own submission
    and writes nothing of the page. *)
Definition onSubmit (p : Page) : Page * option Suspended :=
  let formData := readForm p in
  if someFieldEmpty formData
  then (showFormMessage "Please fill in all fields." "error" p, None)
  else if negb (Js.test emailRegex (email formData))
  then (showFormMessage "Please enter a valid email address." "error" p, None)
  else
    let k := mkSuspended (btnText (submitBtn p)) in
    (fetch (contactCall formData) (disableSubmit p), Some k).

(** Truthiness, for [data.message || '...']. *)
Definition truthy (v : JsValue) : bool :=
  match v with
  | JUndefined | JNull => false
  | JBool b => b
  | JNum n => negb (n =? 0)%Z
  | JStr s => negb (Js.isEmpty s)
  | JArr _ | JObj _ => true
  end.

(** The value of a key of a parsed object; of two entries with the same
    key the later one stands. *)
Definition getProp (k : string) (props : list (string * JsValue)) : JsValue :=
  foldl (λ acc kv, if String.eqb (fst kv) k then snd kv else acc)
        JUndefined props.

(** [data.message] *)
Definition dataMessage (data : JsValue) : JsError + JsValue :=
  match data with
  | JUndefined | JNull => inl TypeError
  | JObj props => inr (getProp "message" props)
  | _ => inr JUndefined
  end.

Definition successText : string :=
  "Message sent successfully! I'll get back to you soon.".
Definition failureText : string :=
  "Sorry, there was an error sending your message. Please try again or email me directly.".

(** The rest of the [try] block, once [fetch] has settled: the page and
    the error thrown, if any. The handler does nothing between its two
    [await]s, so both are taken in one step. *)
Definition tryBlock (r : FetchResult) (p : Page) : Page * option JsError :=
  match r with
  | Rejected e => (p, Some e)
  | Resolved response =>
      match json response with
      | inl e => (p, Some e)
      | inr data =>
          if ok response
          then (reset (showFormMessage successText "success" p), None)
          else
            match dataMessage data with
            | inl e => (p, Some e)
            | inr m =>
                (p, Some (Error (if truthy m then m
                                 else JStr "Failed to send message")))
            end
      end
  end.

Definition catchBlock (e : JsError) (p : Page) : Page :=
  showFormMessage failureText "error"
    (consoleError "Form submission error:" e p).

Definition finallyBlock (k : Suspended) (p : Page) : Page :=
  setSubmitBtn (mkButton false (originalBtnText k)) p.

(** The [try] block and, when it throws, the [catch] block. *)
Definition tryCatch (r : FetchResult) (p : Page) : Page :=
  let '(p1, thrown) := tryBlock r p in
  match thrown with
  | Some e => catchBlock e p1
  | None => p1
  end.

(** The handler from the settling of [fetch] to its end. *)
Definition onSettled (k : Suspended) (r : FetchResult) (p : Page) : Page :=
  finallyBlock k (tryCatch r p).

(** A whole run of the handler when nothing else touches the page while
    the request is in flight. *)
Definition submitHandler (r : FetchResult) (p : Page) : Page :=
  match onSubmit p with
  | (p', None) => p'
  | (p', Some k) => onSettled k r p'
  end.

(** *** What the user sees *)

(** The text of the message box while it is shown. *)
Definition displayed (p : Page) : option string :=
  match formMessage p with
  | Some m => if String.eqb (display m) "block" then Some (textContent m) else None
  | None => None
  end.

(** The request went through: [fetch] resolved, the body was JSON and the
    status was an ok one. *)
Definition succeeded (r : FetchResult) : bool :=
  match r with
  | Resolved response =>
      match json response with
      | inr _ => ok response
      | inl _ => false
      end
  | Rejected _ => false
  end.

(** *** Sample pages and answers *)

Definition emptyInput : Input := mkInput "" "".

(** A page whose form is filled in and whose message box is present. *)
Definition filledPage : Page :=
  mkPage (mkFields (mkInput " Jane Doe " "") (mkInput "jane@example.com" "")
                   (mkInput "Hello there" "") (mkInput "This is a test message." ""))
         (Some (mkMessageBox "" "form-message" "none"))
         (mkButton false "Send Message") [] [] [].

(** The same page with an email that has no dot after the [@]. *)
Definition badEmailPage : Page :=
  mkPage (mkFields (mkInput " Jane Doe " "") (mkInput "jane@example" "")
                   (mkInput "Hello there" "") (mkInput "This is a test message." ""))
         (Some (mkMessageBox "" "form-message" "none"))
         (mkButton false "Send Message") [] [] [].

(** A page with an empty form and no element [#formMessage]. *)
Definition pageWithoutMessageBox : Page :=
  mkPage (mkFields emptyInput emptyInput emptyInput emptyInput)
         None (mkButton false "Send Message") [] [] [].

(** The 429 answer of the API specification. *)
Definition tooManyBody : JsValue :=
  JObj [("success", JBool false);
        ("message", JStr "Too many requests. Please try again later.");
        ("retryAfter", JNum 3600)].
Definition tooManyRequests : FetchResult :=
  Resolved (mkResponse false (inr tooManyBody)).

End Client.

(** ** Sample data for the server *)
Module Sample.
Import Server.

(** Stand-ins for the two library functions, used where a statement needs
    concrete ones: the shape that the client checks, and lower case. *)
Definition isEmail : string → bool := Js.test Client.emailRegex.
Definition normalizeEmail : string → string := Js.toLowerCase.

(** A channel that delivers at the first attempt, and one that never
    delivers. *)
Definition delivers : Channel := λ _ _, DeliveryReceipt.
Definition unreachable : Channel := λ _ _, DeliveryError "ECONNREFUSED".

Definition validBody : Body :=
  <["name" := "Jane Doe"]> (<["email" := "jane@example.com"]>
  (<["subject" := "Hello there"]> (<["message" := "This is a test message."]> ∅))).

(** A payload that passes every check and carries markup. *)
Definition markupBody : Body :=
  <["name" := "Jane Doe"]> (<["email" := "jane@example.com"]>
  (<["subject" := "<b>Hello there</b>"]>
  (<["message" := "This is a test message."]> ∅))).

(** A payload without [name] and [message] and with a short subject. *)
Definition partialBody : Body :=
  <["email" := "jane@example.com"]> (<["subject" := "Hi"]> ∅).

Definition addr : string := "203.0.113.7".

(** The store once [addr] has been counted five times in the first
    five seconds. *)
Definition fullStore : RateLimit.Store :=
  {[ addr := [0; 1000; 2000; 3000; 4000]%Z ]}.

Definition other : string := "198.51.100.2".

(** A valid request that the channel delivers. *)
Definition validAt (a : string) (t : Z) : Request :=
  mkRequest a t validBody delivers.

(** Six requests of [addr] within one hour, among requests of [other]. *)
Definition sixInOneHour : list Request :=
  [ validAt addr 0; validAt other 500; validAt addr 1000; validAt addr 2000;
    validAt addr 3000; validAt addr 4000; validAt other 4500;
    validAt addr 3599999 ]%Z.

(** Five requests of [addr] in the first five seconds. *)
Definition fiveRequests : list Request :=
  [ validAt addr 0; validAt addr 1000; validAt addr 2000; validAt addr 3000;
    validAt addr 4000 ]%Z.

(** A request with an incomplete payload. *)
Definition partialRequest : Request := mkRequest addr 5000 partialBody delivers.

(** A valid request with markup in its subject. *)
Definition markupRequest : Request := mkRequest addr 0 markupBody delivers.

(** A valid request while the channel is down. *)
Definition outageRequest : Request := mkRequest addr 0 validBody unreachable.

(** The payload [validBody] with white space around three of its values
    and with a key that the route does not know. *)
Definition paddedBody : Body :=
  <["name" := "  Jane Doe "]> (<["email" := "jane@example.com"]>
  (<["subject" := " Hello there"]> (<["message" := "This is a test message.  "]>
  (<["phone" := "555-0100"]> ∅)))).




(** The body that [express.json()] reads from the text that
    [JSON.stringify] wrote for the four values of the form. *)
Definition received (d : Client.Fields string) : Body :=
  <["name" := Client.name d]> (<["email" := Client.email d]>
  (<["subject" := Client.subject d]> (<["message" := Client.message d]> ∅))).

(** Text with a tag: a [<] that a [>] follows. *)
Fixpoint hasMarkup (s : string) : bool :=
  match s with
  | EmptyString => false
  | String c s' =>
      (Ascii.eqb c "<" && negb (Js.every (λ d, negb (Ascii.eqb d ">")) s'))
      || hasMarkup s'
  end.

End Sample.

(** ** The rest of the script: navigation, scrolling, the resume button

    The handlers that [assets/js/main.js] registers besides the submit
    handler of the form, each as a function on the part of the document
    that it reads and writes. *)
Module Site.

(** *** [classList]

    The classes of an element, in their order. *)
Definition contains (c : string) (l : list string) : bool := bool_decide (c ∈ l).

Definition add (c : string) (l : list string) : list string :=
  if contains c l then l else l ++ [c].

Definition remove (c : string) (l : list string) : list string :=
  filter (λ x, x ≠ c) l.

Definition toggle (c : string) (l : list string) : list string :=
  if contains c l then remove c l else l ++ [c].

(** *** Positions

    [window.scrollY] (and its alias [pageYOffset]) is a number that need
    not be whole; the script only compares it, with whole numbers. *)
Definition gtb (y : Q) (n : Z) : bool := negb (Qle_bool y (inject_Z n)).
Definition geb (y : Q) (n : Z) : bool := Qle_bool (inject_Z n) y.
Definition ltb (y : Q) (n : Z) : bool := negb (Qle_bool (inject_Z n) y).

(** *** The document *)

(** A [.nav-link]: [getAttribute('href')] (null without the attribute)
    and its classes. *)
Record Link := mkLink { href : option string; linkClasses : list string }.

(** A [.section]: [getAttribute('id')], [offsetTop], [clientHeight]. *)
Record SectionEl := mkSectionEl {
  sectionId : option string; offsetTop : Z; clientHeight : Z
}.

(** The inline style that the script writes on [#scrollTop]. *)
Record Style := mkStyle {
  opacity : string; pointerEvents : string; transition : string
}.

(** The elements that the handlers use without a check belong to every
    document; [#scrollTop] is checked before use and may be absent. *)
Record Doc := mkDoc {
  headerHeight : Z;                 (* [header.offsetHeight] *)
  header : list string;             (* the classes of [#header] *)
  navToggle : list string;          (* the classes of [#nav-toggle] *)
  navMenu : list string;            (* the classes of [#nav-menu] *)
  navLinks : list Link;
  sections : list SectionEl;
  scrollTopBtn : option Style;
  scrolls : list Z                  (* [window.scrollTo({ top })], in order *)
}.

Definition setHeader (h : list string) (d : Doc) : Doc :=
  mkDoc (headerHeight d) h (navToggle d) (navMenu d) (navLinks d)
        (sections d) (scrollTopBtn d) (scrolls d).
Definition setNav (t m : list string) (d : Doc) : Doc :=
  mkDoc (headerHeight d) (header d) t m (navLinks d)
        (sections d) (scrollTopBtn d) (scrolls d).
Definition setNavLinks (ls : list Link) (d : Doc) : Doc :=
  mkDoc (headerHeight d) (header d) (navToggle d) (navMenu d) ls
        (sections d) (scrollTopBtn d) (scrolls d).
Definition setScrollTopBtn (s : option Style) (d : Doc) : Doc :=
  mkDoc (headerHeight d) (header d) (navToggle d) (navMenu d) (navLinks d)
        (sections d) s (scrolls d).
Definition scrollTo (top : Z) (d : Doc) : Doc :=
  mkDoc (headerHeight d) (header d) (navToggle d) (navMenu d) (navLinks d)
        (sections d) (scrollTopBtn d) (scrolls d ++ [top]).

(** A value in a template literal or as a selector: [null] reads as the
    text [null]. *)
Definition stringify (v : option string) : string := default "null" v.

(** *** [setActiveNavLink(activeLink)]

    The link is one of [navLinks], here by its index. *)
Definition setActiveNavLink (i : nat) (d : Doc) : Doc :=
  setNavLinks
    (imap (λ j l, let cl := remove "active" (linkClasses l) in
                  mkLink (href l) (if decide (j = i) then add "active" cl else cl))
          (navLinks d)) d.

(** *** The click handler of [initSmoothScroll] *)

(** What [document.querySelector] does with a selector: it throws on a
    text that is no selector, finds nothing, or finds an element, of which
    the handler reads [offsetTop]. *)
Inductive Query : Type :=
| Threw : Query
| Null : Query
| Found (top : Z) : Query.

Section SmoothScroll.

Variable querySelector : string → Query.

(** The click on the link of index [i]. *)
Definition linkClick (i : nat) (d : Doc) : Doc :=
  match navLinks d !! i with
  | None => d
  | Some link =>
      match querySelector (stringify (href link)) with
      | Found top =>
          let d1 := scrollTo (top - headerHeight d) d in
          let d2 := if contains "active" (navMenu d1)
                    then setNav (remove "active" (navToggle d1))
                                (remove "active" (navMenu d1)) d1
                    else d1 in
          setActiveNavLink i d2
      | Null | Threw => d
      end
  end.

End SmoothScroll.

(** *** The scroll handler of [setActiveNavOnScroll] *)

Definition inSection (headerH : Z) (y : Q) (s : SectionEl) : bool :=
  let sectionTop := (offsetTop s - headerH - 100)%Z in
  geb y sectionTop && ltb y (sectionTop + clientHeight s)%Z.

(** The [forEach] over the sections: [current] starts as the empty text. *)
Definition currentSection (headerH : Z) (y : Q) (ss : list SectionEl)
  : option string :=
  foldl (λ current s, if inSection headerH y s then sectionId s else current)
        (Some "") ss.

Definition activeNavOnScroll (y : Q) (d : Doc) : Doc :=
  let current := currentSection (headerHeight d) y (sections d) in
  setNavLinks
    (map (λ l, let cl := remove "active" (linkClasses l) in
               mkLink (href l)
                 (if decide (href l = Some ("#" +:+ stringify current))
                  then add "active" cl else cl))
         (navLinks d)) d.

(** *** The scroll handler of [initHeaderScroll] *)
Definition headerScroll (y : Q) (d : Doc) : Doc :=
  if gtb y 50
  then setHeader (add "scrolled" (header d)) d
  else setHeader (remove "scrolled" (header d)) d.

(** *** [initMobileNav] *)

(** The click on the toggle. *)
Definition toggleClick (d : Doc) : Doc :=
  setNav (toggle "active" (navToggle d)) (toggle "active" (navMenu d)) d.

(** The click anywhere in the document: [inMenu] and [inToggle] are
    [navMenu.contains(e.target)] and [navToggle.contains(e.target)]. *)
Definition documentClick (inMenu inToggle : bool) (d : Doc) : Doc :=
  if negb inMenu && negb inToggle
  then setNav (remove "active" (navToggle d)) (remove "active" (navMenu d)) d
  else d.

(** *** [initScrollTop] *)

Definition showScrollTop (s : Style) : Style := mkStyle "1" "auto" (transition s).
Definition hideScrollTop (s : Style) : Style := mkStyle "0" "none" (transition s).

(** The statements of [initScrollTop] after the two listeners. *)
Definition initScrollTop (d : Doc) : Doc :=
  match scrollTopBtn d with
  | Some _ => setScrollTopBtn (Some (mkStyle "0" "none" "opacity 0.3s ease")) d
  | None => d
  end.

(** Its scroll handler and its click handler; both are registered only
    when the button is there. *)
Definition scrollTopScroll (y : Q) (d : Doc) : Doc :=
  match scrollTopBtn d with
  | Some s =>
      setScrollTopBtn (Some (if gtb y 500 then showScrollTop s
                             else hideScrollTop s)) d
  | None => d
  end.

Definition scrollTopClick (d : Doc) : Doc :=
  match scrollTopBtn d with
  | Some _ => scrollTo 0 d
  | None => d
  end.

(** *** The events of the document *)

Inductive Event : Type :=
| LinkClick (i : nat) : Event
| ToggleClick : Event
| DocumentClick (inMenu inToggle : bool) : Event
| Scroll (y : Q) : Event
| ScrollTopClick : Event.

Section Events.

Variable querySelector : string → Query.

(** The listeners of [scroll] run in the order in which
    [DOMContentLoaded] registered them. *)
Definition scroll (y : Q) (d : Doc) : Doc :=
  activeNavOnScroll y (scrollTopScroll y (headerScroll y d)).

Definition handle (e : Event) (d : Doc) : Doc :=
  match e with
  | LinkClick i => linkClick querySelector i d
  | ToggleClick => toggleClick d
  | DocumentClick inMenu inToggle => documentClick inMenu inToggle d
  | Scroll y => scroll y d
  | ScrollTopClick => scrollTopClick d
  end.

Definition run (es : list Event) (d : Doc) : Doc :=
  foldl (λ d e, handle e d) d es.

End Events.

(** The menu and its toggle are both open or both closed. *)
Definition inStep (d : Doc) : Prop :=
  contains "active" (navMenu d) = contains "active" (navToggle d).

(** The menu is open. *)
Definition isOpen (d : Doc) : bool := contains "active" (navMenu d).

Section Menu.

Variable querySelector : string → Query.

(** The click on the link of index [i] finds its target. *)
Definition navigates (d : Doc) (i : nat) : bool :=
  match navLinks d !! i with
  | Some link =>
      match querySelector (stringify (href link)) with
      | Found _ => true
      | Null | Threw => false
      end
  | None => false
  end.

(** What one listener does to an open or closed menu: the listener of
    the toggle flips it, the listener of the document closes it on a
    click outside of menu and toggle, and so does the listener of a link
    that finds its target. *)
Definition menuStep (d : Doc) (open : bool) (e : Event) : bool :=
  match e with
  | ToggleClick => negb open
  | DocumentClick inMenu inToggle => open && (inMenu || inToggle)
  | LinkClick i => open && negb (navigates d i)
  | Scroll _ | ScrollTopClick => open
  end.

End Menu.

(** *** Clicks

    A click runs the click listeners of the elements that hold its
    target, from the target outwards, and then the click listener of the
    document: no listener of the script stops the propagation. *)

(** The elements with a click listener of their own. *)
Inductive Target : Type :=
| OnLink (i : nat) : Target
| OnToggle : Target
| OnScrollTop : Target.

#[global] Instance Target_eq_dec : EqDecision Target.
Proof. solve_decision. Defined.

(** A click: the elements with a listener that hold its target, innermost
    first, and [navMenu.contains(e.target)]. The toggle holds the target
    exactly when its listener runs. *)
Record PageClick := mkPageClick { targets : list Target; insideMenu : bool }.

Definition insideToggle (c : PageClick) : bool :=
  bool_decide (OnToggle ∈ targets c).

Definition listener (t : Target) : Event :=
  match t with
  | OnLink i => LinkClick i
  | OnToggle => ToggleClick
  | OnScrollTop => ScrollTopClick
  end.

Definition listeners (c : PageClick) : list Event :=
  (listener <$> targets c) ++ [DocumentClick (insideMenu c) (insideToggle c)].

(** What the user does: a click, or scrolling to a position. *)
Inductive Action : Type :=
| Clicks (c : PageClick) : Action
| Scrolls (y : Q) : Action.

Definition events (a : Action) : list Event :=
  match a with
  | Clicks c => listeners c
  | Scrolls y => [Scroll y]
  end.

Section Actions.

Variable querySelector : string → Query.

Definition act (acts : list Action) (d : Doc) : Doc :=
  run querySelector (concat (events <$> acts)) d.

(** What a click does to an open or closed menu, read off the click
    alone: the listeners of its targets flip the menu (the toggle) or
    close it (a link whose target is found), and the listener of the
    document closes it unless the click is inside the menu or the
    toggle. *)
Definition targetStep (d : Doc) (open : bool) (t : Target) : bool :=
  match t with
  | OnToggle => negb open
  | OnLink i => open && negb (navigates querySelector d i)
  | OnScrollTop => open
  end.

Definition menuAfter (d : Doc) (open : bool) (a : Action) : bool :=
  match a with
  | Clicks c =>
      foldl (targetStep d) open (targets c)
      && (insideMenu c || insideToggle c)
  | Scrolls _ => open
  end.

End Actions.

(** The last position that a run of events scrolled to. *)
Definition lastScroll (es : list Event) : option Q :=
  last (omap (λ e, match e with Scroll y => Some y | _ => None end) es).

(** *** [initResumeButton] *)

(** The text of [.btn-text], the text that the function saved when it
    ran, and the calls of [window.open]. *)
Record Resume := mkResume {
  btnText : string; originalText : string; opened : list (string * string)
}.

Inductive ResumeEvent : Type := MouseEnter | MouseLeave | Click.

(** The function itself, on a page that has the button. *)
Definition initResumeButton (text : string) : Resume := mkResume text text [].

Definition resumeHandle (e : ResumeEvent) (r : Resume) : Resume :=
  match e with
  | MouseEnter => mkResume "Show Resume" (originalText r) (opened r)
  | MouseLeave => mkResume (originalText r) (originalText r) (opened r)
  | Click =>
      mkResume (btnText r) (originalText r)
               (opened r ++ [("assets/resume.pdf", "_blank")])
  end.

Definition resumeRun (es : list ResumeEvent) (r : Resume) : Resume :=
  foldl (λ r e, resumeHandle e r) r es.

#[global] Instance ResumeEvent_eq_dec : EqDecision ResumeEvent.
Proof. solve_decision. Defined.

(** The pointer is over the button: of the events that move it, the last
    one is [mouseenter]. *)
Definition hovering (es : list ResumeEvent) : bool :=
  match last (filter (λ e, e ≠ Click) es) with
  | Some MouseEnter => true
  | _ => false
  end.

Definition clicks (es : list ResumeEvent) : nat :=
  length (filter (λ e, e = Click) es).

(** *** [initScrollAnimations] *)

(** The classes of the elements that the function selects. *)
Definition initScrollAnimations (els : list (list string)) : list (list string) :=
  map (add "fade-in") els.

(** An entry that the observer reports: its target, by index, and
    [isIntersecting]. *)
Definition observerCallback (entries : list (nat * bool))
    (els : list (list string)) : list (list string) :=
  foldl (λ (els : list (list string)) (entry : nat * bool),
           if snd entry then alter (add "visible") (fst entry) els else els)
        els entries.

Definition observe (reports : list (list (nat * bool)))
    (els : list (list string)) : list (list string) :=
  foldl (λ els entries, observerCallback entries els) els reports.

(** *** [debounce(func, wait)]

    The variable [timeout] of the closure, the timers that are set and
    not cleared, each with the arguments that its [later] holds, and the
    calls of [func] so far. Timers are numbered as they are set. *)
Section Debounce.

Context {A : Type}.

Record Debounced := mkDebounced {
  timeout : option nat;
  nextTimer : nat;
  pending : list (nat * A);
  calls : list A
}.

Definition debounce : Debounced := mkDebounced None 0 [] [].

(** [clearTimeout(id)]; [undefined] clears nothing. *)
Definition clearTimeout (id : option nat) (p : list (nat * A)) : list (nat * A) :=
  match id with
  | Some i => filter (λ t, fst t ≠ i) p
  | None => p
  end.

(** A call of the debounced function with the arguments [a]. *)
Definition executedFunction (a : A) (s : Debounced) : Debounced :=
  mkDebounced (Some (nextTimer s)) (S (nextTimer s))
              (clearTimeout (timeout s) (pending s) ++ [(nextTimer s, a)])
              (calls s).

(** The timer [id] is due: its [later] runs, if the timer is still set. *)
Definition later (id : nat) (s : Debounced) : Debounced :=
  match list_find (λ t, fst t = id) (pending s) with
  | Some (_, (_, a)) =>
      mkDebounced (timeout s) (nextTimer s)
                  (clearTimeout (timeout s)
                     (filter (λ t, fst t ≠ id) (pending s)))
                  (calls s ++ [a])
  | None => s
  end.

Inductive DebounceEvent : Type :=
| Call (a : A) : DebounceEvent
| Due (id : nat) : DebounceEvent.

Definition debounceHandle (e : DebounceEvent) (s : Debounced) : Debounced :=
  match e with
  | Call a => executedFunction a s
  | Due id => later id s
  end.

Definition debounceRun (es : list DebounceEvent) (s : Debounced) : Debounced :=
  foldl (λ s e, debounceHandle e s) s es.

(** The arguments of the calls in a run of events. *)
Definition callsOf (es : list DebounceEvent) : list A :=
  omap (λ e, match e with Call a => Some a | Due _ => None end) es.

(** The runs of [func] that a run of events leads to, read off the events
    alone: [n] calls were made so far, and [slot] holds the arguments of
    the last call while its timer (the timer [n - 1]) is not yet due. A
    call takes the slot; the timer of the slot, when due, runs [func] and
    empties the slot; any other timer does nothing. *)
Fixpoint runs (n : nat) (slot : option A) (es : list DebounceEvent) : list A :=
  match es with
  | [] => []
  | Call a :: es' => runs (S n) (Some a) es'
  | Due id :: es' =>
      match slot with
      | Some a => if decide (S id = n) then a :: runs n None es'
                  else runs n slot es'
      | None => runs n None es'
      end
  end.

(** No timer is pending, or one: the one that [timeout] names, which is
    the timer of the last call and holds its arguments. *)
Definition settled (s : Debounced) (slot : option A) : Prop :=
  match slot with
  | None => pending s = []
  | Some a =>
      ∃ id, pending s = [(id, a)] ∧ timeout s = Some id ∧ S id = nextTimer s
  end.

End Debounce.

Arguments Debounced : clear implicits.
Arguments DebounceEvent : clear implicits.

(** *** The timers of [showFormMessage] *)

Definition runCallback (c : Client.Callback) : Client.Page → Client.Page :=
  match c with
  | Client.HideFormMessage => Client.hideFormMessage
  end.

(** The timer of index [i] among the pending ones is due: it leaves the
    list and its callback runs. *)
Definition timerDue (i : nat) (p : Client.Page) : Client.Page :=
  match Client.timers p !! i with
  | Some t =>
      runCallback (Client.callback t)
                  (Client.setTimers (delete i (Client.timers p)) p)
  | None => p
  end.

(** *** Sample documents *)

Definition sampleDoc : Doc :=
  mkDoc 80 ["header"] ["nav-toggle"; "active"] ["nav-menu"; "active"]
        [ mkLink (Some "#about") ["nav-link"; "active"];
          mkLink (Some "#contact") ["nav-link"];
          mkLink None ["nav-link"] ]
        [ mkSectionEl (Some "about") 0 600;
          mkSectionEl (Some "contact") 600 900 ]
        (Some (mkStyle "" "" "")) [].

(** A [querySelector] for a document with the two sections of
    [sampleDoc]. *)
Definition sampleQuery (selector : string) : Query :=
  if String.eqb selector "#about" then Found 0
  else if String.eqb selector "#contact" then Found 600
  else if String.eqb selector "#" then Threw
  else Null.

(** Two elements that [initScrollAnimations] selects, and two reports of
    the observer: the second element is seen, then leaves the view. *)
Definition sampleElements : list (list string) :=
  [["timeline-item"]; ["info-item"]].
Definition sampleReports : list (list (nat * bool)) :=
  [[(0%nat, false); (1%nat, true)]; [(1%nat, false)]].

(** A page that shows one message and has the timer of an older one. *)
Definition pageWithOldTimer : Client.Page :=
  Client.mkPage (Client.inputs Client.filledPage)
                (Some (Client.mkMessageBox "Please fill in all fields."
                         "form-message error" "block"))
                (Client.mkButton false "Send Message") [] []
                [Client.mkTimer Client.HideFormMessage 5000].

End Site.

(* ===================================================================== *)
(** * Part II: theorems                                                  *)
(* ===================================================================== *)

(** ** Strings and patterns *)
Module JsFacts.
Import Js.

Lemma trimEnd_cons_keep c s :
  isSpace c = false → trimEnd (String c s) = String c (trimEnd s).
Proof. intros Hc. simpl. rewrite Hc. by destruct (trimEnd s). Qed.

Lemma trimEnd_idem s : trimEnd (trimEnd s) = trimEnd s.
Proof.
  induction s as [|c s IH]; [done|]. simpl.
  destruct (trimEnd s) as [|a r] eqn:E.
  - destruct (isSpace c) eqn:Hc; [done|]. simpl. by rewrite Hc.
  - change (trimEnd (String c (String a r)) = String c (String a r)).
    simpl in IH |- *. revert IH.
    destruct (trimEnd r) as [|b r'].
    + destruct (isSpace a); [done|]. by intros [= ->].
    + by intros [= ->].
Qed.

Lemma trimStart_head s :
  trimStart s = EmptyString ∨
  ∃ c r, trimStart s = String c r ∧ isSpace c = false.
Proof.
  induction s as [|c s IH]; [by left|]. simpl.
  destruct (isSpace c) eqn:Hc; [done|]. right. by exists c, s.
Qed.

Lemma trimStart_keep c s :
  isSpace c = false → trimStart (String c s) = String c s.
Proof. intros Hc. simpl. by rewrite Hc. Qed.

Lemma trim_idem s : trim (trim s) = trim s.
Proof.
  unfold trim. destruct (trimStart_head s) as [->|(c & r & -> & Hc)]; [done|].
  rewrite (trimEnd_cons_keep c r Hc), (trimStart_keep _ _ Hc).
  by rewrite (trimEnd_cons_keep _ _ Hc), trimEnd_idem.
Qed.

Lemma isEmpty_true s : isEmpty s = true ↔ s = EmptyString.
Proof. by destruct s. Qed.

Lemma isEmpty_false s : isEmpty s = false ↔ s ≠ EmptyString.
Proof. by destruct s. Qed.



(** *** The matcher agrees with the declarative reading *)

Lemma append_empty_inv s1 s2 :
  s1 +:+ s2 = EmptyString → s1 = EmptyString ∧ s2 = EmptyString.
Proof. destruct s1; [done|]. discriminate. Qed.

Lemma append_cons_inv s1 s2 c s :
  s1 +:+ s2 = String c s →
  (s1 = EmptyString ∧ s2 = String c s) ∨
  (∃ s1', s1 = String c s1' ∧ s = s1' +:+ s2).
Proof.
  destruct s1 as [|a s1]; simpl; [by left|].
  intros [= -> <-]. right. by exists s1.
Qed.

Lemma Matches_nil_nullable r s :
  Matches r s → s = EmptyString → nullable r = true.
Proof.
  induction 1 as [ | | r1 r2 s1 s2 _ IH1 _ IH2 | r1 r2 s _ IH | r1 r2 s _ IH
                 | | ]; intros E; simpl; try done.
  - apply append_empty_inv in E as [-> ->]. by rewrite IH1, IH2.
  - by rewrite IH.
  - rewrite IH by done. apply orb_true_r.
Qed.

Lemma nullable_Matches r : nullable r = true ↔ Matches r EmptyString.
Proof.
  split; [|intros H; by eapply Matches_nil_nullable].
  induction r as [ | | p | r1 IH1 r2 IH2 | r1 IH1 r2 IH2 | r IH ];
    simpl; intros H; try done.
  - constructor.
  - apply andb_true_iff in H as [H1 H2].
    apply (MSeq r1 r2 EmptyString EmptyString); auto.
  - apply orb_true_iff in H as [H|H]; [apply MAltL|apply MAltR]; auto.
  - constructor.
Qed.

Lemma deriv_sound r : ∀ c s, Matches (deriv c r) s → Matches r (String c s).
Proof.
  induction r as [ | | p | r1 IH1 r2 IH2 | r1 IH1 r2 IH2 | r IH ];
    intros c s; simpl.
  - inversion 1.
  - inversion 1.
  - destruct (p c) eqn:Hp; inversion 1; subst. by constructor.
  - destruct (nullable r1) eqn:Hn.
    + inversion 1 as [ | | | ? ? ? HL | ? ? ? HR | | ]; subst.
      * inversion HL; subst.
        apply (MSeq r1 r2 (String c _) _); auto.
      * apply (MSeq r1 r2 EmptyString (String c s)); auto.
        by apply nullable_Matches.
    + inversion 1; subst. apply (MSeq r1 r2 (String c _) _); auto.
  - inversion 1; subst; [apply MAltL|apply MAltR]; auto.
  - inversion 1; subst. apply (MStarCons r (String c _) _); auto.
Qed.

Lemma deriv_complete r s' :
  Matches r s' → ∀ c s, s' = String c s → Matches (deriv c r) s.
Proof.
  induction 1 as [ | p a Hp | r1 r2 s1 s2 H1 IH1 H2 IH2 | r1 r2 s0 _ IH
                 | r1 r2 s0 _ IH | | r s1 s2 H1 IH1 H2 IH2 ];
    intros c s E; simpl; try done.
  - injection E as -> <-. rewrite Hp. constructor.
  - apply append_cons_inv in E as [[-> ->]|(s1' & -> & ->)].
    + assert (nullable r1 = true) as -> by by apply nullable_Matches.
      apply MAltR. by apply IH2.
    + destruct (nullable r1); [apply MAltL|]; constructor; auto.
  - apply MAltL. by apply IH.
  - apply MAltR. by apply IH.
  - apply append_cons_inv in E as [[-> ->]|(s1' & -> & ->)].
    + by apply IH2.
    + constructor; auto.
Qed.

Lemma test_Matches r s : test r s = true ↔ Matches r s.
Proof.
  revert r. induction s as [|c s IH]; intros r; simpl.
  - apply nullable_Matches.
  - rewrite IH. split; [apply deriv_sound|].
    intros H. by eapply deriv_complete.
Qed.

Lemma Matches_Star_Class p s : Matches (Star (Class p)) s ↔ every p s = true.
Proof.
  rewrite <- test_Matches. induction s as [|c s IH]; simpl; [done|].
  destruct (p c); simpl.
  - rewrite <- IH. rewrite !test_Matches. split.
    + inversion 1 as [ | | ? ? s1 s2 H1 H2 | | | | ]; subst.
      inversion H1; subst. done.
    + intros H. by apply (MSeq Eps _ EmptyString s); [constructor|].
  - split; [|done]. rewrite test_Matches.
    inversion 1 as [ | | ? ? s1 s2 H1 H2 | | | | ]; subst. inversion H1.
Qed.

Lemma Matches_Plus_Class p s :
  Matches (Plus (Class p)) s ↔ s ≠ EmptyString ∧ every p s = true.
Proof.
  unfold Plus. split.
  - inversion 1 as [ | | ? ? s1 s2 H1 H2 | | | | ]; subst.
    inversion H1; subst. simpl. split; [done|].
    apply Matches_Star_Class in H2.
    change (p c && every p s2 = true). by rewrite H2, andb_true_r.
  - intros [Hne Hall]. destruct s as [|c s]; [done|]. simpl in Hall.
    apply andb_true_iff in Hall as [Hc Hs].
    apply (MSeq _ _ (String c EmptyString) s); [by constructor|].
    by apply Matches_Star_Class.
Qed.

End JsFacts.

(** ** The client *)
Module ClientFacts.
Import Client.

Lemma Matches_Seq_inv r1 r2 s :
  Js.Matches (Js.Seq r1 r2) s ↔
  ∃ s1 s2, s = s1 +:+ s2 ∧ Js.Matches r1 s1 ∧ Js.Matches r2 s2.
Proof.
  split.
  - inversion 1; subst. eauto.
  - intros (s1 & s2 & -> & H1 & H2). by constructor.
Qed.

Lemma Matches_isChar_inv d s :
  Js.Matches (Js.Class (Js.isChar d)) s ↔ s = String d EmptyString.
Proof.
  split.
  - inversion 1 as [ | p c Hc | | | | | ]; subst.
    unfold Js.isChar in Hc. by apply Ascii.eqb_eq in Hc as ->.
  - intros ->. constructor. apply Ascii.eqb_refl.
Qed.

(** The pattern of the script accepts exactly the texts [l@d.t] whose three
    parts are non-empty and free of white space and of [@]. *)
Lemma emailRegex_shape s :
  Js.test emailRegex s = true ↔
  ∃ l d t, s = l +:+ "@" +:+ d +:+ "." +:+ t ∧
    (l ≠ "" ∧ Js.every Js.notSpaceAt l = true) ∧
    (d ≠ "" ∧ Js.every Js.notSpaceAt d = true) ∧
    (t ≠ "" ∧ Js.every Js.notSpaceAt t = true).
Proof.
  rewrite JsFacts.test_Matches. unfold emailRegex. split.
  - intros H.
    apply Matches_Seq_inv in H as (l & s1 & -> & Hl & H).
    apply Matches_Seq_inv in H as (a & s2 & -> & Ha & H).
    apply Matches_isChar_inv in Ha as ->.
    apply Matches_Seq_inv in H as (d & s3 & -> & Hd & H).
    apply Matches_Seq_inv in H as (b & t & -> & Hb & Ht).
    apply Matches_isChar_inv in Hb as ->.
    apply JsFacts.Matches_Plus_Class in Hl, Hd, Ht.
    exists l, d, t. tauto.
  - intros (l & d & t & -> & Hl & Hd & Ht).
    apply JsFacts.Matches_Plus_Class in Hl, Hd, Ht.
    apply Js.MSeq; [done|]. apply Js.MSeq; [by apply Matches_isChar_inv|].
    apply Js.MSeq; [done|]. apply Js.MSeq; [by apply Matches_isChar_inv|done].
Qed.

Example emailRegex_accepts : Js.test emailRegex "jane@example.com" = true.
Proof. reflexivity. Qed.

Example emailRegex_rejects : Js.test emailRegex "invalid-email" = false.
Proof. reflexivity. Qed.

(** *** [showFormMessage] writes the message box and a timer, nothing else *)

Lemma showFormMessage_network text type p :
  network (showFormMessage text type p) = network p.
Proof. unfold showFormMessage. by destruct (formMessage p). Qed.

Lemma showFormMessage_submitBtn text type p :
  submitBtn (showFormMessage text type p) = submitBtn p.
Proof. unfold showFormMessage. by destruct (formMessage p). Qed.

Lemma showFormMessage_inputs text type p :
  inputs (showFormMessage text type p) = inputs p.
Proof. unfold showFormMessage. by destruct (formMessage p). Qed.

Lemma showFormMessage_present text type p :
  is_Some (formMessage p) →
  formMessage (showFormMessage text type p)
  = Some (mkMessageBox text ("form-message " +:+ type) "block").
Proof. intros [m Hm]. unfold showFormMessage. by rewrite Hm. Qed.

Lemma showFormMessage_absent text type p :
  formMessage p = None → showFormMessage text type p = p.
Proof. intros Hm. unfold showFormMessage. by rewrite Hm. Qed.

Lemma showFormMessage_displayed text type p :
  displayed (showFormMessage text type p)
  = match formMessage p with
    | Some _ => Some text
    | None => displayed p
    end.
Proof.
  unfold displayed, showFormMessage.
  destruct (formMessage p) eqn:E; [reflexivity|]. by rewrite E.
Qed.

(** The [try] and [catch] blocks leave the button alone. *)
Lemma tryCatch_submitBtn r q : submitBtn (tryCatch r q) = submitBtn q.
Proof.
  unfold tryCatch, tryBlock, catchBlock.
  destruct r as [e|resp]; simpl; [by rewrite showFormMessage_submitBtn|].
  destruct (json resp) as [e|data]; simpl; [by rewrite showFormMessage_submitBtn|].
  destruct (ok resp); simpl; [by rewrite showFormMessage_submitBtn|].
  destruct (dataMessage data); simpl; by rewrite showFormMessage_submitBtn.
Qed.

Lemma catchBlock_displayed e q :
  displayed (catchBlock e q)
  = match formMessage q with
    | Some _ => Some failureText
    | None => None
    end.
Proof.
  unfold catchBlock. rewrite showFormMessage_displayed.
  unfold displayed. simpl. destruct (formMessage q); reflexivity.
Qed.

(** Whatever the answer, the [try] and [catch] blocks show one of the two
    texts of the script. *)
Lemma tryCatch_displayed r q :
  displayed (tryCatch r q)
  = match formMessage q with
    | Some _ => Some (if succeeded r then successText else failureText)
    | None => None
    end.
Proof.
  unfold tryCatch, tryBlock, succeeded.
  destruct r as [e|resp]; [apply catchBlock_displayed|].
  destruct (json resp) as [e|data]; [apply catchBlock_displayed|].
  destruct (ok resp).
  - change (displayed (reset (showFormMessage successText "success" q)))
      with (displayed (showFormMessage successText "success" q)).
    rewrite showFormMessage_displayed. unfold displayed.
    destruct (formMessage q); reflexivity.
  - destruct (dataMessage data); apply catchBlock_displayed.
Qed.

Lemma tryCatch_inputs r q :
  inputs (tryCatch r q) = if succeeded r then inputs (reset q) else inputs q.
Proof.
  unfold tryCatch, tryBlock, catchBlock, succeeded.
  destruct r as [e|resp]; simpl; [by rewrite showFormMessage_inputs|].
  destruct (json resp) as [e|data]; simpl; [by rewrite showFormMessage_inputs|].
  destruct (ok resp); simpl.
  { unfold reset. simpl. by rewrite showFormMessage_inputs. }
  destruct (dataMessage data); simpl; by rewrite showFormMessage_inputs.
Qed.

(** When the form passes the two checks, the handler is suspended on the
    call of [fetch]. *)
Lemma onSubmit_sent p p' k :
  onSubmit p = (p', Some k) →
  someFieldEmpty (readForm p) = false ∧
  Js.test emailRegex (email (readForm p)) = true ∧
  p' = fetch (contactCall (readForm p)) (disableSubmit p) ∧
  k = mkSuspended (btnText (submitBtn p)).
Proof.
  unfold onSubmit. destruct (someFieldEmpty (readForm p)); [done|].
  destruct (Js.test emailRegex (email (readForm p))); simpl; [|done].
  by intros [= <- <-].
Qed.


(** C8 as stated fails on a page without the element [#formMessage]: the
    form is empty, the handler returns, and no message is displayed. *)
Lemma empty_form_without_message_box_shows_nothing :
  name (readForm pageWithoutMessageBox) = "" ∧
  onSubmit pageWithoutMessageBox = (pageWithoutMessageBox, None) ∧
  displayed (fst (onSubmit pageWithoutMessageBox)) = None.
Proof. by vm_compute. Qed.

(** C8 (amended): when a trimmed field is empty or the email does not match
    the pattern, the handler calls [showFormMessage] with one of its two
    error texts and returns: no continuation is left, no call of [fetch] is
    made whatever the server would answer, and the button is untouched. The
    text is displayed when the page has the element [#formMessage]; without
    it the page is unchanged. *)
Theorem invalid_form_is_not_sent (p : Page) :
  let d := readForm p in
  name d = "" ∨ email d = "" ∨ subject d = "" ∨ message d = "" ∨
    Js.test emailRegex (email d) = false →
  ∃ text,
    (text = "Please fill in all fields." ∨
     text = "Please enter a valid email address.") ∧
    onSubmit p = (showFormMessage text "error" p, None) ∧
    (∀ r, submitHandler r p = showFormMessage text "error" p) ∧
    network (showFormMessage text "error" p) = network p ∧
    submitBtn (showFormMessage text "error" p) = submitBtn p ∧
    (is_Some (formMessage p) →
     formMessage (showFormMessage text "error" p)
     = Some (mkMessageBox text "form-message error" "block") ∧
     displayed (showFormMessage text "error" p) = Some text) ∧
    (formMessage p = None → showFormMessage text "error" p = p).
Proof.
  intros d H.
  assert (someFieldEmpty d = true ∨
          someFieldEmpty d = false ∧ Js.test emailRegex (email d) = false)
    as Hcase.
  { unfold someFieldEmpty.
    destruct H as [->|[->|[->|[->|H]]]]; simpl;
      rewrite ?orb_true_r; auto.
    destruct (_ || _ || _ || _); auto. }
  assert (∃ text,
    (text = "Please fill in all fields." ∨
     text = "Please enter a valid email address.") ∧
    onSubmit p = (showFormMessage text "error" p, None)) as (text & Ht & Hs).
  { unfold onSubmit. fold d. destruct Hcase as [->|[-> ->]]; simpl; eauto. }
  exists text. split; [done|]. split; [done|].
  split; [intros r; unfold submitHandler; by rewrite Hs|].
  split; [apply showFormMessage_network|].
  split; [apply showFormMessage_submitBtn|].
  split.
  - intros Hm. split; [by apply showFormMessage_present|].
    rewrite showFormMessage_displayed. by destruct Hm as [m ->].
  - apply showFormMessage_absent.
Qed.

Lemma invalid_form_is_not_sent_witness :
  ∃ text,
    (text = "Please fill in all fields." ∨
     text = "Please enter a valid email address.") ∧
    onSubmit badEmailPage = (showFormMessage text "error" badEmailPage, None) ∧
    (∀ r, submitHandler r badEmailPage = showFormMessage text "error" badEmailPage) ∧
    network (showFormMessage text "error" badEmailPage) = network badEmailPage ∧
    submitBtn (showFormMessage text "error" badEmailPage) = submitBtn badEmailPage ∧
    (is_Some (formMessage badEmailPage) →
     formMessage (showFormMessage text "error" badEmailPage)
     = Some (mkMessageBox text "form-message error" "block") ∧
     displayed (showFormMessage text "error" badEmailPage) = Some text) ∧
    (formMessage badEmailPage = None →
     showFormMessage text "error" badEmailPage = badEmailPage).
Proof.
  apply (invalid_form_is_not_sent badEmailPage).
  right. right. right. right. reflexivity.
Defined.

(** C9: a submission that reaches the network call leaves the handler
    suspended on a page whose button was disabled and labelled [Sending...]
    before the call went out; and however [fetch] settles (an ok answer,
    another answer, an error thrown), on whatever page, the handler ends
    with the button enabled and the label it had at the submission. *)
Theorem submit_button_disabled_then_restored (p p' : Page) (k : Suspended) :
  onSubmit p = (p', Some k) →
  p' = fetch (contactCall (readForm p)) (disableSubmit p) ∧
  submitBtn (disableSubmit p) = mkButton true "Sending..." ∧
  network (disableSubmit p) = network p ∧
  network p' = network p ++ [contactCall (readForm p)] ∧
  submitBtn p' = mkButton true "Sending..." ∧
  ∀ r q, submitBtn (onSettled k r q) = mkButton false (btnText (submitBtn p)).
Proof.
  intros H. apply onSubmit_sent in H as (_ & _ & -> & ->).
  repeat split; done.
Qed.

Lemma submit_button_disabled_then_restored_witness :
  fst (onSubmit filledPage)
  = fetch (contactCall (readForm filledPage)) (disableSubmit filledPage) ∧
  submitBtn (disableSubmit filledPage) = mkButton true "Sending..." ∧
  network (disableSubmit filledPage) = network filledPage ∧
  network (fst (onSubmit filledPage))
  = network filledPage ++ [contactCall (readForm filledPage)] ∧
  submitBtn (fst (onSubmit filledPage)) = mkButton true "Sending..." ∧
  ∀ r q, submitBtn (onSettled (mkSuspended "Send Message") r q)
         = mkButton false (btnText (submitBtn filledPage)).
Proof.
  apply (submit_button_disabled_then_restored filledPage
           (fst (onSubmit filledPage)) (mkSuspended "Send Message")).
  reflexivity.
Defined.

(** C10: the handler resets the form only in the branch of an ok answer.
    Before the answer it does not write the fields; when [fetch] rejects,
    when the answer is not ok, or when its body is no JSON, the fields keep
    the values they have; if the fields change, the answer was ok; and on
    an ok answer with a JSON body the fields are reset. *)
Theorem form_reset_only_on_ok (k : Suspended) (r : FetchResult) (q : Page) :
  (∀ p, inputs (fst (onSubmit p)) = inputs p) ∧
  (∀ e, r = Rejected e → inputs (onSettled k r q) = inputs q) ∧
  (∀ resp, r = Resolved resp → ok resp = false →
           inputs (onSettled k r q) = inputs q) ∧
  (∀ resp e, r = Resolved resp → json resp = inl e →
             inputs (onSettled k r q) = inputs q) ∧
  (inputs (onSettled k r q) ≠ inputs q →
   ∃ resp, r = Resolved resp ∧ ok resp = true) ∧
  (∀ resp data, r = Resolved resp → ok resp = true → json resp = inr data →
                inputs (onSettled k r q) = inputs (reset q)).
Proof.
  assert (inputs (onSettled k r q)
          = if succeeded r then inputs (reset q) else inputs q) as E
    by apply tryCatch_inputs.
  split.
  { intros p. unfold onSubmit.
    destruct (someFieldEmpty _); [apply showFormMessage_inputs|].
    destruct (Js.test _ _); [done|apply showFormMessage_inputs]. }
  rewrite E. unfold succeeded. repeat split.
  - by intros e ->.
  - intros resp -> Hok. rewrite Hok. by destruct (json resp).
  - by intros resp e -> ->.
  - intros Hne. destruct r as [e|resp]; [done|].
    destruct (json resp); [done|]. destruct (ok resp) eqn:Hok; [eauto|done].
  - by intros resp data -> -> ->.
Qed.

(** C7 as stated fails on the 429 answer of the API specification: the
    body carries the message of the server, the page shows the fixed
    error text of the script instead, and the message of the server is in
    the console. *)
Lemma server_message_is_not_displayed :
  dataMessage tooManyBody
  = inr (JStr "Too many requests. Please try again later.") ∧
  displayed (submitHandler tooManyRequests filledPage) = Some failureText ∧
  String.eqb failureText "Too many requests. Please try again later." = false ∧
  console (submitHandler tooManyRequests filledPage)
  = [("Form submission error:",
      Error (JStr "Too many requests. Please try again later."))].
Proof. by vm_compute. Qed.

(** C7 (amended): for every submission the client sends, it issues one
    POST to [/api/contact] with the trimmed fields; the button is disabled
    while the request is in flight, the [try] and [catch] blocks that run
    when it settles do not touch the button, and the [finally] block
    enables it; on a page with the element [#formMessage] the text
    displayed is a fixed text of the script, the success text when the
    request went through and the error text otherwise, whatever the body
    of the answer holds; the message of the body of an answer that is not
    ok goes to [console.error], inside the error thrown. *)
Theorem sent_submission_shows_fixed_text (p p' : Page) (k : Suspended) :
  onSubmit p = (p', Some k) →
  network p' = network p ++ [contactCall (readForm p)] ∧
  url (contactCall (readForm p)) = "/api/contact" ∧
  method (contactCall (readForm p)) = "POST" ∧
  disabled (submitBtn p') = true ∧
  ∀ r q,
    submitBtn (tryCatch r q) = submitBtn q ∧
    disabled (submitBtn (onSettled k r q)) = false ∧
    displayed (onSettled k r q)
    = match formMessage q with
      | Some _ => Some (if succeeded r then successText else failureText)
      | None => None
      end ∧
    (∀ resp data m,
       r = Resolved resp → ok resp = false → json resp = inr data →
       dataMessage data = inr m → truthy m = true →
       console (onSettled k r q)
       = console q ++ [("Form submission error:", Error m)]).
Proof.
  intros H. apply onSubmit_sent in H as (_ & _ & -> & ->).
  repeat split; try done.
  - apply tryCatch_submitBtn.
  - apply tryCatch_displayed.
  - intros resp data m -> Hok Hj Hm Ht.
    unfold onSettled, tryCatch, tryBlock. rewrite Hj, Hok, Hm, Ht.
    unfold catchBlock, showFormMessage. simpl.
    by destruct (formMessage q).
Qed.

Lemma sent_submission_shows_fixed_text_witness :
  network (fst (onSubmit filledPage))
  = network filledPage ++ [contactCall (readForm filledPage)] ∧
  url (contactCall (readForm filledPage)) = "/api/contact" ∧
  method (contactCall (readForm filledPage)) = "POST" ∧
  disabled (submitBtn (fst (onSubmit filledPage))) = true ∧
  ∀ r q,
    submitBtn (tryCatch r q) = submitBtn q ∧
    disabled (submitBtn (onSettled (mkSuspended "Send Message") r q)) = false ∧
    displayed (onSettled (mkSuspended "Send Message") r q)
    = match formMessage q with
      | Some _ => Some (if succeeded r then successText else failureText)
      | None => None
      end ∧
    (∀ resp data m,
       r = Resolved resp → ok resp = false → json resp = inr data →
       dataMessage data = inr m → truthy m = true →
       console (onSettled (mkSuspended "Send Message") r q)
       = console q ++ [("Form submission error:", Error m)]).
Proof.
  apply (sent_submission_shows_fixed_text filledPage
           (fst (onSubmit filledPage)) (mkSuspended "Send Message")).
  reflexivity.
Defined.

End ClientFacts.

(** ** The server *)
Module ServerFacts.
Import Server.

Section Endpoint.

Variable isEmail : string → bool.
Variable normalizeEmail : string → string.
Variable retries : nat.

Local Abbreviation validators := (validators isEmail normalizeEmail).
Local Abbreviation sanitize := (sanitize isEmail normalizeEmail).
Local Abbreviation validationResult := (validationResult isEmail normalizeEmail).
Local Abbreviation handler := (handler retries).
Local Abbreviation allAttemptsFail := (allAttemptsFail isEmail normalizeEmail retries).
Local Abbreviation handled := (handled isEmail normalizeEmail retries).
Local Abbreviation dispatched := (dispatched isEmail normalizeEmail retries).
Local Abbreviation answered := (answered isEmail normalizeEmail retries).

(** *** The validator chains *)

(** The four chains, run in order: what they leave in [req.body] and the
    errors they collect. *)
Lemma runChains_validators (b : Body) :
  runChains validators b
  = (<["message" := Js.trim (toString (b !! "message"))]>
       (<["subject" := Js.trim (toString (b !! "subject"))]>
          (<["email" := normalizeEmail (toString (b !! "email"))]>
             (<["name" := Js.trim (toString (b !! "name"))]> b))),
     check "name" (isLength 2 100 (Js.trim (toString (b !! "name")))) ++
     check "email" (isEmail (toString (b !! "email"))) ++
     check "subject" (isLength 5 200 (Js.trim (toString (b !! "subject")))) ++
     check "message" (isLength 10 2000 (Js.trim (toString (b !! "message"))))).
Proof.
  unfold Server.validators, runChains, runChain, andThen, body. simpl.
  rewrite !lookup_insert_ne by done. by rewrite !app_nil_r.
Qed.

Lemma sanitize_eq (b : Body) :
  sanitize b
  = <["message" := Js.trim (toString (b !! "message"))]>
      (<["subject" := Js.trim (toString (b !! "subject"))]>
         (<["email" := normalizeEmail (toString (b !! "email"))]>
            (<["name" := Js.trim (toString (b !! "name"))]> b))).
Proof. unfold Server.sanitize. by rewrite runChains_validators. Qed.

Lemma validationResult_eq (b : Body) :
  validationResult b
  = check "name" (isLength 2 100 (Js.trim (toString (b !! "name")))) ++
    check "email" (isEmail (toString (b !! "email"))) ++
    check "subject" (isLength 5 200 (Js.trim (toString (b !! "subject")))) ++
    check "message" (isLength 10 2000 (Js.trim (toString (b !! "message")))).
Proof. unfold Server.validationResult. by rewrite runChains_validators. Qed.





Lemma isLength_empty min max : (0 < min)%nat → isLength min max "" = false.
Proof. unfold isLength. simpl. by destruct min; [lia|]. Qed.

(** *** The route *)

Lemma limiter_admitted (st : RateLimit.Store) (a : string) (now : Z) :
  snd (RateLimit.limiter st a now) = Next →
  (RateLimit.count st a now < RateLimit.max)%nat ∧
  RateLimit.limiter st a now
  = (<[a := RateLimit.live now (st !!! a) ++ [now]]> st, Next).
Proof.
  unfold RateLimit.limiter, RateLimit.count. case_decide; [done|].
  intros _. split; [lia|done].
Qed.

Lemma limiter_blocked (st : RateLimit.Store) (a : string) (now : Z) (s : Z) :
  snd (RateLimit.limiter st a now) = Blocked s →
  (RateLimit.max ≤ RateLimit.count st a now)%nat ∧
  s = RateLimit.retryAfterSeconds now (RateLimit.live now (st !!! a)) ∧
  RateLimit.limiter st a now
  = (<[a := RateLimit.live now (st !!! a)]> st, Blocked s).
Proof.
  unfold RateLimit.limiter, RateLimit.count. case_decide; [|done].
  simpl. by intros [= <-].
Qed.

(** The route with any limiter in the place of the library's. *)
Section Route.

Variable State : Type.
Variable limiter : State → string → Z → State * Outcome.

Local Abbreviation postContact :=
  (postContact isEmail normalizeEmail retries limiter).
Local Abbreviation admitted := (admitted limiter).

Lemma postContact_admitted (st : State) (r : Request) :
  admitted st r →
  postContact st r
  = (fst (limiter st (ip r) (receivedAt r)),
     handler (sanitize (reqBody r)) (validationResult (reqBody r)) (channel r)).
Proof.
  unfold Server.admitted, Server.postContact, Server.sanitize,
    Server.validationResult.
  destruct (limiter _ _ _) as [st' d]. simpl. intros ->.
  by destruct (runChains validators (reqBody r)).
Qed.

Lemma postContact_blocked (st : State) (r : Request) (s : Z) :
  snd (limiter st (ip r) (receivedAt r)) = Blocked s →
  postContact st r
  = (fst (limiter st (ip r) (receivedAt r)), tooManyRequests s).
Proof.
  unfold Server.postContact.
  destruct (limiter _ _ _) as [st' d]. simpl. by intros ->.
Qed.

(** The validators and the handler do not write the state of the limiter:
    the route leaves it as the limiter left it, whatever the payload and
    whatever the channel does. *)
Lemma postContact_state (st : State) (r : Request) :
  fst (postContact st r) = fst (limiter st (ip r) (receivedAt r)).
Proof.
  unfold Server.postContact. destruct (limiter _ _ _) as [st' [|s]]; [|done].
  by destruct (runChains validators (reqBody r)).
Qed.



(** *** Sanitization *)

Lemma sanitize_lookups (b : Body) :
  sanitize b !! "name" = Some (Js.trim (toString (b !! "name"))) ∧
  sanitize b !! "email" = Some (normalizeEmail (toString (b !! "email"))) ∧
  sanitize b !! "subject" = Some (Js.trim (toString (b !! "subject"))) ∧
  sanitize b !! "message" = Some (Js.trim (toString (b !! "message"))).
Proof. rewrite sanitize_eq. by simplify_map_eq. Qed.



(** *** Dispatch *)

Lemma sendWithRetry_error (a : nat → Delivery) (n i : nat) :
  (∃ e, sendWithRetry a i n = DeliveryError e) ↔
  (∀ j, (i ≤ j ≤ i + n)%nat → ∃ e, a j = DeliveryError e).
Proof.
  revert i. induction n as [|n IH]; intros i; simpl.
  - split.
    + intros [e He] j Hj. replace j with i by lia.
      destruct (a i); [done|eauto].
    + intros H. destruct (H i ltac:(lia)) as [e ->]. eauto.
  - split.
    + intros [e He] j Hj. destruct (a i) as [|e0] eqn:Ha; [done|].
      destruct (decide (j = i)) as [->|]; [eauto|].
      apply (proj1 (IH (S i))); [eauto|lia].
    + intros H. destruct (H i ltac:(lia)) as [e ->].
      apply IH. intros j Hj. apply H. lia.
Qed.

(** C5: the answer is the 500 response exactly when the request passed the
    limiter and the validators and every attempt of the retry policy to
    deliver it failed; that response is the fixed one of the [catch]
    branch, which holds no text of the error. This holds with any limiter
    as the first middleware of the route. *)
Theorem dispatch_failure_is_generic (st : State) (r : Request) :
  (status (snd (postContact st r)) = 500%Z ↔
   admitted st r ∧ validationResult (reqBody r) = [] ∧ allAttemptsFail r) ∧
  (status (snd (postContact st r)) = 500%Z →
   snd (postContact st r)
   = mkResponse 500 (Res.mk false "Error sending message" None None)).
Proof.
  assert (allAttemptsFail r ↔
          ∃ e, sendWithRetry (channel r (destructure (sanitize (reqBody r))))
                 0 retries = DeliveryError e) as Hall.
  { rewrite sendWithRetry_error. unfold Server.allAttemptsFail.
    split; intros H j Hj; apply H; lia. }
  unfold Server.admitted.
  destruct (snd (limiter st (ip r) (receivedAt r))) as [|s] eqn:Hl.
  - rewrite postContact_admitted by done. simpl. unfold Server.handler.
    destruct (validationResult (reqBody r)) as [|e es]; simpl.
    + destruct (sendWithRetry _ _ _) eqn:Hs; simpl.
      * split; [|done]. split; [done|]. intros (_ & _ & H).
        apply Hall in H as [e He]. congruence.
      * split; [|done]. split; [|done]. intros _. split; [done|].
        split; [done|]. apply Hall. eauto.
    + split; [|done]. split; [done|]. by intros (_ & ? & _).
  - rewrite (postContact_blocked _ _ _ Hl). simpl.
    split; [|done]. split; [done|]. by intros (? & _).
Qed.

(** So the payload and the channel cannot reach the state of the limiter:
    two requests of one address at one time leave the same state. *)
Lemma postContact_state_payload (st : State) (r : Request)
    (b : Body) (ch : Channel) :
  fst (postContact st (mkRequest (ip r) (receivedAt r) b ch))
  = fst (postContact st r).
Proof. by rewrite !postContact_state. Qed.

End Route.

(** *** The route with the limiter of the rolling window *)

Local Abbreviation postContact :=
  (postContact isEmail normalizeEmail retries RateLimit.limiter).
Local Abbreviation serve := (serve isEmail normalizeEmail retries RateLimit.limiter).
Local Abbreviation admitted := (admitted RateLimit.limiter).

(** *** The order of the limiter and the validators *)

Lemma live_snoc_now (now : Z) (l : list Z) :
  RateLimit.live now (RateLimit.live now l ++ [now])
  = RateLimit.live now l ++ [now].
Proof.
  unfold RateLimit.live. rewrite filter_app, list_filter_filter_l by done.
  rewrite filter_cons_True; [done|]. unfold RateLimit.windowMs. lia.
Qed.

(** C3 (amended): the count of the source address goes up by exactly one
    when the limiter admits the request, before the validators run; the
    store that the route leaves is the one that the limiter left, the same
    whatever the payload and whatever the channel does, so a request that
    fails validation and a request whose dispatch fails consume one unit
    of quota each; the windows of the other addresses are untouched. *)
Theorem quota_consumed_on_admission (st : RateLimit.Store) (r : Request) :
  admitted st r →
  RateLimit.count (fst (postContact st r)) (ip r) (receivedAt r)
  = S (RateLimit.count st (ip r) (receivedAt r)) ∧
  fst (postContact st r) = fst (RateLimit.limiter st (ip r) (receivedAt r)) ∧
  (∀ b ch, fst (postContact st (mkRequest (ip r) (receivedAt r) b ch))
           = fst (postContact st r)) ∧
  (∀ a, a ≠ ip r → fst (postContact st r) !! a = st !! a).
Proof.
  intros Hadm. apply limiter_admitted in Hadm as [_ Hl].
  rewrite !postContact_state. rewrite Hl. simpl.
  repeat split.
  - unfold RateLimit.count. rewrite lookup_total_insert_eq, live_snoc_now.
    rewrite length_app. simpl. lia.
  - intros b ch. rewrite postContact_state. simpl. by rewrite Hl.
  - intros a Ha. by rewrite lookup_insert_ne.
Qed.

(** *** The route, step by step *)

Lemma handled_status (r : Request) : status (handled r) ≠ 429%Z.
Proof.
  unfold Server.handled, Server.handler.
  destruct (validationResult _); [|done]. by destruct (sendWithRetry _ _ _).
Qed.

Lemma handled_ok (r : Request) :
  validationResult (reqBody r) = [] → dispatched r → handled r = messageSent.
Proof.
  unfold Server.handled, Server.handler, Server.dispatched.
  by intros -> ->.
Qed.

Lemma postContact_cases (st : RateLimit.Store) (r : Request) :
  let now := receivedAt r in
  let log := RateLimit.live now (st !!! ip r) in
  ((length log < RateLimit.max)%nat ∧
   postContact st r = (<[ip r := log ++ [now]]> st, handled r)) ∨
  ((RateLimit.max ≤ length log)%nat ∧
   postContact st r
   = (<[ip r := log]> st,
      tooManyRequests (RateLimit.retryAfterSeconds now log))).
Proof.
  intros now log. subst now log.
  destruct (snd (RateLimit.limiter st (ip r) (receivedAt r))) as [|s] eqn:Hl.
  - left. pose proof (limiter_admitted _ _ _ Hl) as [Hc Hs].
    split; [done|]. rewrite postContact_admitted by done. by rewrite Hs.
  - right. pose proof (limiter_blocked _ _ _ _ Hl) as (Hc & -> & Hs).
    split; [done|]. rewrite (postContact_blocked _ _ _ _ _ Hl). by rewrite Hs.
Qed.

Lemma serve_cons (st : RateLimit.Store) (r : Request) (rs : list Request) :
  serve st (r :: rs)
  = (fst (serve (fst (postContact st r)) rs),
     (r, snd (postContact st r)) :: snd (serve (fst (postContact st r)) rs)).
Proof.
  simpl. destruct (postContact st r) as [st1 res]. simpl.
  by destruct (serve st1 rs).
Qed.

(** A request leaves the windows of the other addresses alone. *)
Lemma postContact_other (st : RateLimit.Store) (r : Request) (a : string) :
  ip r ≠ a → fst (postContact st r) !!! a = st !!! a.
Proof.
  intros Hne.
  destruct (postContact_cases st r) as [[_ ->]|[_ ->]]; simpl;
    by rewrite lookup_total_insert_ne.
Qed.

Lemma serve_other (a : string) (rs : list Request) :
  ∀ st, Forall (λ r, ip r ≠ a) rs → fst (serve st rs) !!! a = st !!! a.
Proof.
  induction rs as [|r rs IH]; intros st Hrs; [done|].
  apply Forall_cons in Hrs as [Hr Hrs].
  rewrite serve_cons. simpl. rewrite IH by done. by apply postContact_other.
Qed.

(** The stored window never holds more than the ceiling. *)
Lemma bounded_empty : RateLimit.bounded ∅.
Proof. intros a. rewrite lookup_total_empty. simpl. lia. Qed.

Lemma postContact_bounded (st : RateLimit.Store) (r : Request) :
  RateLimit.bounded st → RateLimit.bounded (fst (postContact st r)).
Proof.
  intros Hb a.
  destruct (decide (ip r = a)) as [<-|Hne];
    [|rewrite postContact_other by done; apply Hb].
  destruct (postContact_cases st r) as [[Hc ->]|[_ ->]]; simpl;
    rewrite lookup_total_insert_eq.
  - rewrite length_app. simpl. lia.
  - etrans; [apply length_filter|apply Hb].
Qed.

Lemma serve_bounded (rs : list Request) :
  ∀ st, RateLimit.bounded st → RateLimit.bounded (fst (serve st rs)).
Proof.
  induction rs as [|r rs IH]; intros st Hb; [done|].
  rewrite serve_cons. simpl. by apply IH, postContact_bounded.
Qed.

(** *** The rolling window *)

Lemma length_filter_impl {A} (P Q : A → Prop)
    `{!∀ x, Decision (P x), !∀ x, Decision (Q x)} (l : list A) :
  (∀ x, x ∈ l → P x → Q x) →
  (length (filter P l) ≤ length (filter Q l))%nat.
Proof.
  induction l as [|x l IH]; intros Himp; [done|].
  rewrite !filter_cons.
  assert (length (filter P l) ≤ length (filter Q l))%nat as Hle
    by (apply IH; intros y Hy; apply Himp; by right).
  destruct (decide (P x)) as [HP|]; destruct (decide (Q x)) as [|HQ];
    simpl; try lia.
  destruct HQ. apply Himp; [by left|done].
Qed.

Lemma live_live (t now : Z) (l : list Z) :
  (now ≤ t)%Z → RateLimit.live t (RateLimit.live now l) = RateLimit.live t l.
Proof.
  intros Ht. unfold RateLimit.live. apply list_filter_filter_l.
  intros x. simpl. lia.
Qed.

Lemma live_app (t : Z) (l1 l2 : list Z) :
  RateLimit.live t (l1 ++ l2) = RateLimit.live t l1 ++ RateLimit.live t l2.
Proof. apply filter_app. Qed.

Lemma counted_cons (a : string) (r : Request) (res : Response)
    (h : list (Request * Response)) :
  counted a ((r, res) :: h)
  = (if decide (ip r = a ∧ status res ≠ 429%Z) then [receivedAt r] else [])
    ++ counted a h.
Proof.
  unfold counted. rewrite filter_cons. simpl. by case_decide.
Qed.

Section Window.

Variable a : string.

(** The invariant of the proof: [P] lists the counted requests of [a] so
    far, all of them at or before [T]; from [T] on, the stored window and
    [P] have the same live part. *)
Lemma window_bound (rs : list Request) :
  ∀ (st : RateLimit.Store) (P : list Z) (T : Z),
    chronological rs →
    Forall (λ r, (T ≤ receivedAt r)%Z) rs →
    Forall (λ x, (x ≤ T)%Z) P →
    (∀ t, (T ≤ t)%Z → RateLimit.live t (st !!! a) = RateLimit.live t P) →
    (∀ t, (length (filter (inWindow t) P) ≤ RateLimit.max)%nat) →
    ∀ t, (length (filter (inWindow t) (P ++ counted a (snd (serve st rs))))
          ≤ RateLimit.max)%nat.
Proof.
  induction rs as [|r rs IH]; intros st P T Hchr HT HP Hlive Hbound t.
  { simpl. rewrite app_nil_r. apply Hbound. }
  destruct Hchr as [Hr Hchr]. apply Forall_cons in HT as [HTr HT].
  rewrite serve_cons. simpl. rewrite counted_cons.
  set (now := receivedAt r) in *.
  assert (Forall (λ x, (x ≤ now)%Z) P) as HP'.
  { eapply Forall_impl; [exact HP|]. intros x. simpl. lia. }
  assert (∀ st1 P1,
    Forall (λ x, (x ≤ now)%Z) P1 →
    (∀ t, (now ≤ t)%Z → RateLimit.live t (st1 !!! a) = RateLimit.live t P1) →
    (∀ t, (length (filter (inWindow t) P1) ≤ RateLimit.max)%nat) →
    (length (filter (inWindow t) (P1 ++ counted a (snd (serve st1 rs))))
     ≤ RateLimit.max)%nat) as Hnext.
  { intros st1 P1 H1 H2 H3. by apply (IH st1 P1 now). }
  destruct (decide (ip r = a)) as [Ha|Ha].
  - destruct (postContact_cases st r) as [[Hc ->]|[Hc ->]]; simpl.
    + (* counted *)
      rewrite decide_True by (split; [done|apply handled_status]).
      rewrite app_assoc. apply Hnext.
      * apply Forall_app. split; [done|]. apply Forall_singleton. lia.
      * intros t' Ht'. rewrite Ha, lookup_total_insert_eq.
        rewrite !live_app, live_live by done. by rewrite Hlive by lia.
      * intros t'. rewrite filter_app, length_app.
        destruct (decide (inWindow t' now)) as [Hin|Hout].
        -- rewrite (filter_cons_True _ _ _ Hin). simpl.
           assert (length (filter (inWindow t') P)
                   ≤ length (RateLimit.live now P))%nat as Hle.
           { apply length_filter_impl. intros x Hx Hw.
             rewrite Forall_forall in HP'. specialize (HP' x Hx).
             unfold inWindow in *. simpl in *. lia. }
           rewrite <- Hlive in Hle by lia. rewrite Ha in Hc.
           unfold now in *. lia.
        -- rewrite (filter_cons_False _ _ _ Hout). simpl.
           specialize (Hbound t'). lia.
    + (* rejected *)
      rewrite decide_False by (intros [_ H]; by apply H).
      simpl. apply Hnext; [done| |done].
      intros t' Ht'. rewrite Ha, lookup_total_insert_eq.
      rewrite live_live by done. apply Hlive. lia.
  - rewrite decide_False by (by intros [? _]). simpl.
    apply Hnext; [done| |done].
    intros t' Ht'. rewrite postContact_other by done. apply Hlive. lia.
Qed.

(** The first requests of [a] in a window fill the quota, the others are
    rejected. [k] counts the stored requests of [a] from [t1] on; every
    other stored request of [a] has aged out by [t1]. *)
Lemma serve_answered (t1 : Z) (rs : list Request) :
  ∀ (st : RateLimit.Store),
    Forall (λ ts, (t1 ≤ ts)%Z ∨ (ts + RateLimit.windowMs ≤ t1)%Z) (st !!! a) →
    Forall (λ r, (t1 ≤ receivedAt r < t1 + RateLimit.windowMs)%Z)
           (requestsOf a rs) →
    answered (length (filter (λ ts, (t1 ≤ ts)%Z) (st !!! a)))
             (requestsOf a rs) (answersTo a (snd (serve st rs))).
Proof.
  induction rs as [|r rs IH]; intros st HQ Hrs; [done|].
  rewrite serve_cons. unfold requestsOf, answersTo in *. simpl.
  rewrite filter_cons in Hrs. rewrite !filter_cons. simpl.
  destruct (decide (ip r = a)) as [Ha|Ha]; simpl.
  2:{ rewrite <- (postContact_other st r a Ha) at 1.
      apply IH; [by rewrite postContact_other|done]. }
  apply Forall_cons in Hrs as [Hr Hrs].
  set (now := receivedAt r) in *.
  assert (RateLimit.live now (st !!! a) = filter (λ ts, (t1 ≤ ts)%Z) (st !!! a))
    as Hlive.
  { unfold RateLimit.live. induction HQ as [|x l Hx _ IHl]; [done|].
    rewrite !filter_cons, IHl.
    destruct (decide (now < x + RateLimit.windowMs)%Z),
             (decide (t1 ≤ x)%Z); try done; lia. }
  assert (Forall (λ ts, (t1 ≤ ts)%Z) (filter (λ ts, (t1 ≤ ts)%Z) (st !!! a)))
    as Hall.
  { apply Forall_forall. intros x Hx. by apply list_elem_of_filter in Hx as [? _]. }
  destruct (postContact_cases st r) as [[Hc ->]|[Hc ->]]; simpl;
    fold now in Hc |- *; rewrite Ha, Hlive in Hc |- *.
  - rewrite decide_True by done. split; [done|].
    specialize (IH (<[a := filter (λ ts, (t1 ≤ ts)%Z) (st !!! a) ++ [now]]> st)).
    rewrite lookup_total_insert_eq in IH.
    rewrite filter_app, list_filter_filter_l in IH by done.
    rewrite filter_cons_True, filter_nil, length_app in IH by lia.
    simpl in IH. rewrite Nat.add_1_r in IH. apply IH; [|done].
    apply Forall_app. split.
    + eapply Forall_impl; [exact Hall|]. intros x. simpl. auto.
    + apply Forall_singleton. left. lia.
  - rewrite decide_False by lia. split.
    + eexists. split; [|done].
      destruct (filter (λ ts, (t1 ≤ ts)%Z) (st !!! a)) as [|o l] eqn:E.
      { simpl in Hc. unfold RateLimit.max in Hc. lia. }
      simpl. assert (now < o + RateLimit.windowMs)%Z.
      { apply Forall_cons in Hall as [Ho _]. lia. }
      apply Z.div_str_pos. lia.
    + specialize (IH (<[a := filter (λ ts, (t1 ≤ ts)%Z) (st !!! a)]> st)).
      rewrite lookup_total_insert_eq in IH.
      rewrite list_filter_filter_l in IH by done. apply IH; [|done].
      eapply Forall_impl; [exact Hall|]. intros x. simpl. auto.
Qed.

End Window.

(** C2: (1) over any chronological run of the server from its start, the
    requests of a source address that were counted (not answered with 429)
    number at most 5 in every rolling window of one hour; (2) when a source
    address, whose earlier counted requests have all aged out, issues six
    requests within one hour, among any requests of other addresses, and
    the first five are valid and delivered, these five are answered with
    the status 200 and the body [{success: true, message: 'Message sent
    successfully'}], and the sixth with the status 429 and a body with
    [success: false] and a positive [retryAfter]. *)
Theorem rolling_window_quota :
  (∀ (rs : list Request) (a : string) (t : Z),
     chronological rs →
     (length (filter (inWindow t) (counted a (snd (serve ∅ rs))))
      ≤ RateLimit.max)%nat) ∧
  (∀ (st : RateLimit.Store) (rs : list Request) (a : string) (t1 : Z)
     (r1 r2 r3 r4 r5 r6 : Request),
     Forall (λ ts, (ts + RateLimit.windowMs ≤ t1)%Z) (st !!! a) →
     requestsOf a rs = [r1; r2; r3; r4; r5; r6] →
     Forall (λ r, (t1 ≤ receivedAt r < t1 + RateLimit.windowMs)%Z)
            [r1; r2; r3; r4; r5; r6] →
     Forall (λ r, validationResult (reqBody r) = [] ∧ dispatched r)
            [r1; r2; r3; r4; r5] →
     ∃ s, (0 < s)%Z ∧
          answersTo a (snd (serve st rs))
          = replicate 5
              (mkResponse 200
                 (Res.mk true "Message sent successfully" None None))
            ++ [mkResponse 429
                  (Res.mk false "Too many requests. Please try again later."
                          None (Some s))]).
Proof.
  split.
  - intros rs a t Hchr. destruct rs as [|r rs]; [simpl; lia|].
    apply (window_bound a (r :: rs) ∅ [] (receivedAt r)).
    + done.
    + destruct Hchr as [Hr _]. apply Forall_cons. split; [lia|done].
    + done.
    + intros t' _. by rewrite lookup_total_empty.
    + intros t'. simpl. lia.
  - intros st rs a t1 r1 r2 r3 r4 r5 r6 Hold Hreq Htimes Hvalid.
    assert (filter (λ ts, (t1 ≤ ts)%Z) (st !!! a) = []) as Hnone.
    { induction Hold as [|x l Hx _ IHl]; [done|].
      rewrite filter_cons_False; [exact IHl|].
      unfold RateLimit.windowMs in Hx. lia. }
    pose proof (serve_answered a t1 rs st) as Hans.
    rewrite Hnone, Hreq in Hans. simpl in Hans.
    specialize (Hans ltac:(eapply Forall_impl; [exact Hold|]; simpl; auto)
                     Htimes).
    assert (∀ r, r ∈ [r1; r2; r3; r4; r5] → handled r = messageSent) as Hok.
    { intros r Hr. rewrite Forall_forall in Hvalid.
      destruct (Hvalid r Hr). by apply handled_ok. }
    destruct (answersTo a (snd (serve st rs))) as [|x1 [|x2 [|x3 [|x4 [|x5 [|x6 [|x7 l]]]]]]];
      simpl in Hans;
      repeat (case_decide; [|unfold RateLimit.max in *; lia]);
      try (case_decide; [unfold RateLimit.max in *; lia|]);
      try tauto.
    destruct Hans as (-> & -> & -> & -> & -> & (s & Hs & ->) & _).
    exists s. split; [done|].
    rewrite !Hok by set_solver. done.
Qed.

Lemma windowStart_blocked (st : RateLimit.Store) (a : string) (t s : Z) :
  snd (RateLimit.limiter st a t) = Blocked s →
  ∃ o, RateLimit.windowStart st a t = Some o ∧
       (t < o + RateLimit.windowMs)%Z ∧
       (o + RateLimit.windowMs ≤ t + 1000 * s)%Z ∧ (0 < s)%Z.
Proof.
  intros Hl. apply limiter_blocked in Hl as (Hc & -> & _).
  unfold RateLimit.windowStart, RateLimit.count in *.
  destruct (RateLimit.live t (st !!! a)) as [|o l] eqn:E;
    [unfold RateLimit.max in Hc; simpl in Hc; lia|].
  exists o. split; [done|].
  assert (o ∈ RateLimit.live t (st !!! a)) as Ho by (rewrite E; by left).
  apply list_elem_of_filter in Ho as [Ho _]. simpl.
  split; [done|]. split; [|apply Z.div_str_pos; lia].
  pose proof (Z.div_mod (o + RateLimit.windowMs - t + 999) 1000 ltac:(lia)).
  pose proof (Z.mod_pos_bound (o + RateLimit.windowMs - t + 999) 1000 ltac:(lia)).
  lia.
Qed.

(** C6: take a store that the server has reached from its start, and a
    source address that the limiter rejects at time [t]. Once the oldest
    counted request of its window has aged out, a valid and delivered
    request of that address succeeds: it is answered with the status 200
    and the body [{success: true, message: 'Message sent successfully'}],
    whatever requests of other addresses were served in between. *)
Theorem blocked_address_recovers
    (rs : list Request) (a : string) (t s o : Z)
    (others : list Request) (r : Request) :
  let st := fst (serve ∅ rs) in
  snd (RateLimit.limiter st a t) = Blocked s →
  RateLimit.windowStart st a t = Some o →
  Forall (λ r', ip r' ≠ a) others →
  ip r = a →
  (o + RateLimit.windowMs ≤ receivedAt r)%Z →
  validationResult (reqBody r) = [] →
  dispatched r →
  snd (postContact (fst (serve (fst (RateLimit.limiter st a t)) others)) r)
  = mkResponse 200 (Res.mk true "Message sent successfully" None None).
Proof.
  intros st Hl Ho Hothers Ha Hage Hvalid Hdisp.
  assert (RateLimit.bounded st) as Hb by apply serve_bounded, bounded_empty.
  apply limiter_blocked in Hl as (_ & _ & ->). simpl.
  set (st2 := fst (serve (<[a := RateLimit.live t (st !!! a)]> st) others)).
  assert (st2 !!! a = RateLimit.live t (st !!! a)) as E.
  { unfold st2. rewrite serve_other by done. apply lookup_total_insert_eq. }
  unfold RateLimit.windowStart in Ho.
  destruct (RateLimit.live t (st !!! a)) as [|o' l] eqn:El; [done|].
  injection Ho as ->.
  assert (length (o :: l) ≤ RateLimit.max)%nat as Hlen.
  { rewrite <- El. etrans; [apply length_filter|apply Hb]. }
  destruct (postContact_cases st2 r) as [[_ ->]|[Hc _]]; simpl.
  { by apply handled_ok. }
  exfalso. rewrite Ha, E in Hc. unfold RateLimit.live in Hc.
  rewrite filter_cons_False in Hc by lia.
  pose proof (length_filter (λ ts, (receivedAt r < ts + RateLimit.windowMs)%Z) l).
  simpl in Hlen. lia.
Qed.

End Endpoint.

(** *** The statements at sample data *)

Abbreviation postContact' :=
  (postContact Sample.isEmail Sample.normalizeEmail 2 RateLimit.limiter).
Abbreviation serve' :=
  (serve Sample.isEmail Sample.normalizeEmail 2 RateLimit.limiter).
Abbreviation validationResult' :=
  (validationResult Sample.isEmail Sample.normalizeEmail).
Abbreviation sanitize' := (sanitize Sample.isEmail Sample.normalizeEmail).

Example valid_submission :
  postContact' ∅ (Sample.validAt Sample.addr 0)
  = ({[ Sample.addr := [0%Z] ]}, messageSent).
Proof. vm_compute. reflexivity. Qed.

Example short_subject :
  snd (postContact' ∅ (mkRequest Sample.addr 0
         (<["subject" := "Hi"]> Sample.validBody) Sample.delivers))
  = validationError [mkFieldError "subject" "Invalid value"].
Proof. vm_compute. reflexivity. Qed.

Example dispatch_outage :
  postContact' ∅ Sample.outageRequest
  = ({[ Sample.addr := [0%Z] ]}, errorSending).
Proof. vm_compute. reflexivity. Qed.

Example five_requests_fill_the_window :
  fst (serve' ∅ Sample.fiveRequests) = Sample.fullStore.
Proof. vm_compute. reflexivity. Qed.



(** C3 as stated fails on a request with an incomplete payload: it is
    answered with the 400 response and the count of its address has gone
    from 0 to 1. *)
Lemma invalid_request_consumes_quota :
  status (snd (postContact' ∅ Sample.partialRequest)) = 400%Z ∧
  RateLimit.count ∅ Sample.addr 5000 = 0%nat ∧
  RateLimit.count (fst (postContact' ∅ Sample.partialRequest)) Sample.addr 5000
  = 1%nat.
Proof. vm_compute. done. Qed.

Lemma quota_consumed_on_admission_witness :
  RateLimit.count (fst (postContact' ∅ Sample.outageRequest))
                  (ip Sample.outageRequest) (receivedAt Sample.outageRequest)
  = S (RateLimit.count ∅ (ip Sample.outageRequest)
                       (receivedAt Sample.outageRequest)) ∧
  fst (postContact' ∅ Sample.outageRequest)
  = fst (RateLimit.limiter ∅ (ip Sample.outageRequest)
                           (receivedAt Sample.outageRequest)) ∧
  (∀ b ch, fst (postContact' ∅ (mkRequest (ip Sample.outageRequest)
                                  (receivedAt Sample.outageRequest) b ch))
           = fst (postContact' ∅ Sample.outageRequest)) ∧
  (∀ a, a ≠ ip Sample.outageRequest →
        fst (postContact' ∅ Sample.outageRequest) !! a
        = (∅ : RateLimit.Store) !! a).
Proof.
  apply (quota_consumed_on_admission Sample.isEmail Sample.normalizeEmail 2
           ∅ Sample.outageRequest).
  vm_compute. reflexivity.
Defined.

(** The chains strip no markup: a payload that passes every validator
    keeps the tags of its subject. *)
Example chains_keep_markup :
  validationResult' Sample.markupBody = [] ∧
  sanitize' Sample.markupBody !! "subject" = Some "<b>Hello there</b>" ∧
  Sample.hasMarkup "<b>Hello there</b>" = true.
Proof. vm_compute. done. Qed.



Lemma rolling_window_quota_witness :
  ∃ s, (0 < s)%Z ∧
       answersTo Sample.addr (snd (serve' ∅ Sample.sixInOneHour))
       = replicate 5
           (mkResponse 200
              (Res.mk true "Message sent successfully" None None))
         ++ [mkResponse 429
               (Res.mk false "Too many requests. Please try again later."
                       None (Some s))].
Proof.
  apply (proj2 (rolling_window_quota Sample.isEmail Sample.normalizeEmail 2)
           ∅ Sample.sixInOneHour Sample.addr 0%Z
           (Sample.validAt Sample.addr 0) (Sample.validAt Sample.addr 1000)
           (Sample.validAt Sample.addr 2000) (Sample.validAt Sample.addr 3000)
           (Sample.validAt Sample.addr 4000)
           (Sample.validAt Sample.addr 3599999)).
  - rewrite lookup_total_empty. constructor.
  - vm_compute. reflexivity.
  - repeat constructor; vm_compute; congruence.
  - repeat constructor; vm_compute; reflexivity.
Defined.

Lemma blocked_address_recovers_witness :
  snd (postContact'
         (fst (serve'
                 (fst (RateLimit.limiter (fst (serve' ∅ Sample.fiveRequests))
                                         Sample.addr 5000))
                 [Sample.validAt Sample.other 6000]))
         (Sample.validAt Sample.addr 3600000))
  = mkResponse 200 (Res.mk true "Message sent successfully" None None).
Proof.
  apply (blocked_address_recovers Sample.isEmail Sample.normalizeEmail 2
           Sample.fiveRequests Sample.addr 5000 3595 0
           [Sample.validAt Sample.other 6000]
           (Sample.validAt Sample.addr 3600000)).
  - vm_compute. reflexivity.
  - vm_compute. reflexivity.
  - repeat constructor. vm_compute. discriminate.
  - reflexivity.
  - vm_compute. discriminate.
  - vm_compute. reflexivity.
  - vm_compute. reflexivity.
Defined.


End ServerFacts.

(** ** The rest of the script *)
Module SiteFacts.
Import Site.

(** *** [classList] *)

Lemma contains_true c l : contains c l = true ↔ c ∈ l.
Proof. unfold contains. apply bool_decide_eq_true. Qed.

Lemma contains_false c l : contains c l = false ↔ c ∉ l.
Proof. unfold contains. apply bool_decide_eq_false. Qed.

Lemma contains_ext c l1 l2 : (c ∈ l1 ↔ c ∈ l2) → contains c l1 = contains c l2.
Proof. intros H. unfold contains. by apply bool_decide_ext. Qed.

Lemma elem_of_add c d l : c ∈ add d l ↔ c = d ∨ c ∈ l.
Proof.
  unfold add. destruct (contains d l) eqn:E.
  - apply contains_true in E. split; [auto|]. by intros [->|].
  - rewrite elem_of_app, list_elem_of_singleton. tauto.
Qed.

Lemma elem_of_remove c d l : c ∈ remove d l ↔ c ≠ d ∧ c ∈ l.
Proof. unfold remove. by rewrite list_elem_of_filter. Qed.

Lemma elem_of_toggle c d l :
  c ∈ toggle d l ↔ (c = d ∧ d ∉ l) ∨ (c ≠ d ∧ c ∈ l).
Proof.
  unfold toggle. destruct (contains d l) eqn:E.
  - apply contains_true in E. rewrite elem_of_remove. tauto.
  - apply contains_false in E. rewrite elem_of_app, list_elem_of_singleton.
    destruct (decide (c = d)) as [->|]; tauto.
Qed.

Lemma contains_remove_same c l : contains c (remove c l) = false.
Proof. apply contains_false. rewrite elem_of_remove. tauto. Qed.

Lemma contains_add_same c l : contains c (add c l) = true.
Proof. apply contains_true, elem_of_add. by left. Qed.

Lemma contains_toggle_same c l : contains c (toggle c l) = negb (contains c l).
Proof.
  destruct (contains c l) eqn:E; simpl.
  - apply contains_false. rewrite elem_of_toggle.
    apply contains_true in E. tauto.
  - apply contains_true. rewrite elem_of_toggle.
    apply contains_false in E. tauto.
Qed.

Lemma remove_remove c l : remove c (remove c l) = remove c l.
Proof. unfold remove. by apply list_filter_filter_l. Qed.

Lemma add_add c l : add c (add c l) = add c l.
Proof. unfold add at 1. by rewrite contains_add_same. Qed.

Lemma add_remove c l : add c (remove c l) = remove c l ++ [c].
Proof. unfold add. by rewrite contains_remove_same. Qed.

Lemma remove_add_remove c l : remove c (add c (remove c l)) = remove c l.
Proof.
  rewrite add_remove. unfold remove at 1. rewrite filter_app.
  fold (remove c (remove c l)). rewrite remove_remove.
  rewrite filter_cons_False by (intros H; by apply H). apply app_nil_r.
Qed.

(** *** Comparisons *)

Lemma gtb_true y n : gtb y n = true ↔ (inject_Z n < y)%Q.
Proof.
  unfold gtb. rewrite negb_true_iff, <- not_true_iff_false, Qle_bool_iff.
  split; [apply Qnot_le_lt|apply Qlt_not_le].
Qed.

(** *** Navigation *)

Section Navigation.

Variable querySelector : string → Query.

Local Abbreviation linkClick := (linkClick querySelector).
Local Abbreviation handle := (handle querySelector).
Local Abbreviation run := (run querySelector).

Lemma run_snoc es e d : run (es ++ [e]) d = handle e (run es d).
Proof. unfold Site.run. by rewrite foldl_snoc. Qed.

Lemma lookup_setActiveNavLink i d j :
  navLinks (setActiveNavLink i d) !! j
  = (λ l, mkLink (href l)
            (if decide (j = i)
             then add "active" (remove "active" (linkClasses l))
             else remove "active" (linkClasses l)))
      <$> navLinks d !! j.
Proof. unfold setActiveNavLink. simpl. by rewrite list_lookup_imap. Qed.

(** X3: a click on a navigation link whose target exists asks for one
    scroll, to the top of the target less the height of the header,
    leaves the menu closed, and leaves the clicked link as the only active
    one; when the selector finds nothing or is no selector, the click
    changes nothing. *)
Theorem link_click_activates_only_that_link
    (i : nat) (d : Doc) (link : Link) :
  navLinks d !! i = Some link →
  (∀ top, querySelector (stringify (href link)) = Found top →
     scrolls (linkClick i d) = scrolls d ++ [(top - headerHeight d)%Z] ∧
     contains "active" (navMenu (linkClick i d)) = false ∧
     (contains "active" (navToggle (linkClick i d)) = true →
      contains "active" (navToggle d) = true ∧
      contains "active" (navMenu d) = false) ∧
     length (navLinks (linkClick i d)) = length (navLinks d) ∧
     ∀ j l, navLinks d !! j = Some l →
       ∃ l', navLinks (linkClick i d) !! j = Some l' ∧ href l' = href l ∧
             (contains "active" (linkClasses l') = true ↔ j = i)) ∧
  (querySelector (stringify (href link)) = Null ∨
   querySelector (stringify (href link)) = Threw →
   linkClick i d = d).
Proof.
  intros Hi. split.
  - intros top Hq. unfold Site.linkClick. rewrite Hi, Hq.
    set (d1 := scrollTo (top - headerHeight d) d).
    set (d2 := if contains "active" (navMenu d1) then _ else d1).
    assert (scrolls d2 = scrolls d ++ [(top - headerHeight d)%Z] ∧
            navLinks d2 = navLinks d ∧
            contains "active" (navMenu d2) = false ∧
            (contains "active" (navToggle d2) = true →
             contains "active" (navToggle d) = true ∧
             contains "active" (navMenu d) = false))
      as (Hs & Hl & Hm & Ht).
    { unfold d2. simpl. destruct (contains "active" (navMenu d)) eqn:E; simpl.
      - rewrite !contains_remove_same. by repeat split.
      - by repeat split. }
    split; [done|]. split; [done|]. split; [done|].
    split; [unfold setActiveNavLink; simpl; by rewrite length_imap, Hl|].
    intros j l Hj. rewrite lookup_setActiveNavLink, Hl, Hj. simpl.
    eexists. split; [done|]. split; [done|]. simpl.
    case_decide.
    + by rewrite contains_add_same.
    + by rewrite contains_remove_same.
  - unfold Site.linkClick. rewrite Hi. by intros [->| ->].
Qed.

(** X4: whatever the clicks and the scrolls, the menu and its toggle stay
    in step: both carry the class [active] or neither does. *)
Theorem menu_and_toggle_stay_in_step (es : list Event) (d : Doc) :
  inStep d → inStep (run es d).
Proof.
  intros Hd. induction es as [|e es IH] using rev_ind; [done|].
  rewrite run_snoc. revert IH. generalize (run es d). clear. intros d Hd.
  unfold inStep in *. destruct e as [i| |inMenu inToggle|y|]; simpl.
  - unfold Site.linkClick. destruct (navLinks d !! i); [|done].
    destruct (querySelector _); try done. simpl.
    destruct (contains "active" (navMenu d)) eqn:E; simpl; [|by rewrite <- Hd].
    by rewrite !contains_remove_same.
  - by rewrite !contains_toggle_same, Hd.
  - unfold documentClick. destruct (negb inMenu && negb inToggle); [|done].
    simpl. by rewrite !contains_remove_same.
  - unfold scroll, activeNavOnScroll, scrollTopScroll, headerScroll.
    destruct (gtb y 50); simpl; by destruct (scrollTopBtn d).
  - unfold scrollTopClick. by destruct (scrollTopBtn d).
Qed.

(** The script writes no [href]. *)
Lemma hrefs_handle e d :
  href <$> navLinks (handle e d) = href <$> navLinks d.
Proof.
  destruct e as [i| |inMenu inToggle|y|]; simpl.
  - unfold Site.linkClick. destruct (navLinks d !! i); [|done].
    destruct (querySelector _); try done.
    apply list_eq. intros j.
    rewrite !list_lookup_fmap, lookup_setActiveNavLink.
    assert (∀ d0, navLinks (if contains "active" (navMenu d0)
                            then setNav (remove "active" (navToggle d0))
                                        (remove "active" (navMenu d0)) d0
                            else d0) = navLinks d0) as ->.
    { intros d0. by destruct (contains "active" (navMenu d0)). }
    simpl. by destruct (navLinks d !! j).
  - done.
  - unfold documentClick. by destruct (negb inMenu && negb inToggle).
  - unfold scroll, activeNavOnScroll. simpl. rewrite <- list_fmap_compose.
    assert (navLinks (scrollTopScroll y (headerScroll y d)) = navLinks d) as ->.
    { unfold scrollTopScroll, headerScroll.
      destruct (gtb y 50); simpl; by destruct (scrollTopBtn d). }
    by apply list_fmap_ext.
  - unfold scrollTopClick. by destruct (scrollTopBtn d).
Qed.

Lemma hrefs_run es d : href <$> navLinks (run es d) = href <$> navLinks d.
Proof.
  induction es as [|e es IH] using rev_ind; [done|].
  by rewrite run_snoc, hrefs_handle.
Qed.

Lemma navigates_hrefs d d' i :
  href <$> navLinks d = href <$> navLinks d' →
  navigates querySelector d i = navigates querySelector d' i.
Proof.
  intros H. apply (f_equal (λ l, l !! i)) in H.
  rewrite !list_lookup_fmap in H. unfold navigates.
  destruct (navLinks d !! i), (navLinks d' !! i); simpl in H; try done.
  by injection H as ->.
Qed.

Lemma isOpen_handle e d :
  isOpen (handle e d) = menuStep querySelector d (isOpen d) e.
Proof.
  unfold isOpen. destruct e as [i| |inMenu inToggle|y|]; simpl.
  - unfold Site.linkClick, navigates. destruct (navLinks d !! i).
    + destruct (querySelector _); simpl; rewrite ?andb_true_r; try done.
      destruct (contains "active" (navMenu d)) eqn:E; simpl; [|done].
      apply contains_remove_same.
    + by rewrite andb_true_r.
  - apply contains_toggle_same.
  - unfold documentClick.
    destruct inMenu, inToggle; simpl; rewrite ?andb_true_r; try done.
    by rewrite contains_remove_same, andb_false_r.
  - unfold scroll, activeNavOnScroll, scrollTopScroll, headerScroll.
    destruct (gtb y 50); simpl; by destruct (scrollTopBtn d).
  - unfold scrollTopClick. by destruct (scrollTopBtn d).
Qed.

(** The menu after a run of listeners. *)
Lemma isOpen_run (es : list Event) (d : Doc) :
  isOpen (run es d) = foldl (menuStep querySelector d) (isOpen d) es.
Proof.
  induction es as [|e es IH] using rev_ind; [done|].
  rewrite run_snoc, !foldl_snoc, isOpen_handle, IH.
  destruct e; simpl; try done.
  by rewrite (navigates_hrefs (run es d) d) by apply hrefs_run.
Qed.

Lemma menuStep_events (d : Doc) (a : Action) (open : bool) :
  foldl (menuStep querySelector d) open (events a)
  = menuAfter querySelector d open a.
Proof.
  destruct a as [c|y]; [|done]. simpl. unfold listeners.
  rewrite foldl_app. simpl. f_equal. generalize open.
  induction (targets c) as [|t l IH]; intros o; [done|].
  simpl. rewrite IH. by destruct t.
Qed.

(** X5: whether the menu is open after any clicks and scrolls can be read
    off what the user did. A click runs the listeners of the elements
    that hold its target and then the listener of the document: the
    toggle flips the menu, a link whose target [querySelector] finds
    closes it (a link without a target, or with a selector on which
    [querySelector] throws, leaves it), and the document closes it unless
    the click is inside the menu or the toggle. So every click outside of
    the menu and the toggle leaves the menu closed, also a click on the
    scroll-to-top button. Scrolling leaves the menu as it is. *)
Theorem menu_follows_the_clicks (acts : list Action) (d : Doc) :
  isOpen (act querySelector acts d)
  = foldl (menuAfter querySelector d) (isOpen d) acts ∧
  (∀ c, insideMenu c = false → OnToggle ∉ targets c →
        isOpen (act querySelector (acts ++ [Clicks c]) d) = false) ∧
  (∀ y, isOpen (act querySelector (acts ++ [Scrolls y]) d)
        = isOpen (act querySelector acts d)).
Proof.
  assert (∀ l, isOpen (act querySelector l d)
               = foldl (menuAfter querySelector d) (isOpen d) l) as H.
  { intros l. unfold act. rewrite isOpen_run. generalize (isOpen d).
    induction l as [|a l IH]; intros o; [done|]. simpl.
    by rewrite foldl_app, menuStep_events, IH. }
  split; [apply H|]. split.
  - intros c Hm Ht. rewrite H, foldl_snoc. simpl. unfold insideToggle.
    by rewrite Hm, bool_decide_eq_false_2, andb_false_r.
  - intros y. by rewrite !H, foldl_snoc.
Qed.

End Navigation.

(** *** Scrolling *)

Lemma currentSection_from h y ss cur :
  foldl (λ current s, if inSection h y s then sectionId s else current) cur ss
  = match last (filter (λ s, inSection h y s = true) ss) with
    | Some s => sectionId s
    | None => cur
    end.
Proof.
  induction ss as [|s ss IH] using rev_ind; [done|].
  rewrite foldl_snoc, filter_app, filter_cons, filter_nil, IH.
  case_decide as Hs.
  - by rewrite Hs, last_snoc.
  - apply not_true_is_false in Hs. by rewrite Hs, app_nil_r.
Qed.

(** X6: after the scroll handler of the navigation the active links are
    exactly those whose [href] is [#] followed by the id of the last
    section, in the order of the document, whose band (from 100 below its
    top less the header to its height further) holds the position; when
    no section does, they are the links whose [href] is the bare [#]. The
    other classes of the links and their [href] stay. *)
Theorem active_links_follow_the_position (y : Q) (d : Doc) :
  let current :=
    match last (filter (λ s, inSection (headerHeight d) y s = true)
                       (sections d)) with
    | Some s => sectionId s
    | None => Some ""
    end in
  Forall2 (λ l l',
             href l' = href l ∧
             (contains "active" (linkClasses l') = true ↔
              href l = Some ("#" +:+ stringify current)) ∧
             (∀ c, c ≠ "active" →
                   contains c (linkClasses l') = contains c (linkClasses l)))
          (navLinks d) (navLinks (activeNavOnScroll y d)).
Proof.
  intros current. unfold activeNavOnScroll, currentSection. simpl.
  rewrite currentSection_from. fold current.
  apply Forall2_fmap_r, Forall_Forall2_diag, Forall_forall.
  intros l _. simpl. split; [done|]. split.
  - case_decide as Hh.
    + by rewrite contains_add_same.
    + rewrite contains_remove_same. split; [done|]. intros H. by destruct Hh.
  - intros c Hc. apply contains_ext. case_decide.
    + rewrite elem_of_add, elem_of_remove. tauto.
    + rewrite elem_of_remove. tauto.
Qed.

Lemma activeNavOnScroll_idem y d :
  activeNavOnScroll y (activeNavOnScroll y d) = activeNavOnScroll y d.
Proof.
  unfold activeNavOnScroll. simpl. unfold setNavLinks. simpl. f_equal.
  rewrite <- list_fmap_compose. apply list_fmap_ext. intros _ l _. simpl.
  f_equal. case_decide.
  - by rewrite remove_add_remove.
  - by rewrite remove_remove.
Qed.

(** X7: a scroll event runs the three scroll listeners. Afterwards the
    header carries the class [scrolled] exactly when the position is
    above 50, whatever it carried before, and keeps its other classes;
    and handling the same position once more changes nothing. *)
Theorem scroll_depends_on_the_position_only (y : Q) (d : Doc) :
  (contains "scrolled" (header (scroll y d)) = true ↔ (50 < y)%Q) ∧
  (∀ c, c ≠ "scrolled" →
        contains c (header (scroll y d)) = contains c (header d)) ∧
  scroll y (scroll y d) = scroll y d.
Proof.
  split; [|split].
  - unfold scroll, activeNavOnScroll, scrollTopScroll, headerScroll.
    rewrite <- (gtb_true y 50).
    destruct (gtb y 50); simpl; destruct (scrollTopBtn d); simpl;
      rewrite ?contains_add_same, ?contains_remove_same; done.
  - intros c Hc.
    unfold scroll, activeNavOnScroll, scrollTopScroll, headerScroll.
    destruct (gtb y 50); simpl; destruct (scrollTopBtn d); simpl;
      apply contains_ext; rewrite ?elem_of_add, ?elem_of_remove; tauto.
  - unfold scroll at 1 2.
    assert (∀ d0, headerScroll y (activeNavOnScroll y d0)
                  = activeNavOnScroll y (headerScroll y d0)) as C1.
    { intros d0. unfold headerScroll, activeNavOnScroll.
      by destruct (gtb y 50). }
    assert (∀ d0, scrollTopScroll y (activeNavOnScroll y d0)
                  = activeNavOnScroll y (scrollTopScroll y d0)) as C2.
    { intros d0. unfold scrollTopScroll, activeNavOnScroll. simpl.
      by destruct (scrollTopBtn d0). }
    assert (∀ d0, headerScroll y (scrollTopScroll y d0)
                  = scrollTopScroll y (headerScroll y d0)) as C3.
    { intros d0. unfold scrollTopScroll, headerScroll.
      destruct (gtb y 50); simpl; by destruct (scrollTopBtn d0). }
    assert (∀ d0, headerScroll y (headerScroll y d0) = headerScroll y d0) as I1.
    { intros d0. unfold headerScroll. destruct (gtb y 50); simpl;
        unfold setHeader; simpl; by rewrite ?add_add, ?remove_remove. }
    assert (∀ d0, scrollTopScroll y (scrollTopScroll y d0)
                  = scrollTopScroll y d0) as I2.
    { intros d0. unfold scrollTopScroll.
      destruct (scrollTopBtn d0) eqn:E; simpl; [|by rewrite E].
      by destruct (gtb y 500). }
    by rewrite C1, C2, C3, I1, I2, activeNavOnScroll_idem.
Qed.

(** *** The button that scrolls to the top *)

Lemma lastScroll_snoc es e :
  lastScroll (es ++ [e])
  = match e with Scroll y => Some y | _ => lastScroll es end.
Proof.
  unfold lastScroll. rewrite omap_app.
  destruct e; simpl; rewrite ?app_nil_r; try done. apply last_snoc.
Qed.

(** X8: after [initScrollTop] and any clicks and scrolls, the button is
    either shown and clickable or hidden and not clickable: it is shown
    (opacity 1, pointer events on) exactly when the last scroll event was
    at a position above 500, and hidden (opacity 0, pointer events off)
    otherwise, also before the first scroll event, wherever the page
    stands then. A page without the button stays without it. *)
Theorem scroll_top_button_follows_the_last_scroll
    (querySelector : string → Query) (es : list Event) (d : Doc) :
  match scrollTopBtn (run querySelector es (initScrollTop d)) with
  | Some s =>
      is_Some (scrollTopBtn d) ∧
      transition s = "opacity 0.3s ease" ∧
      (opacity s, pointerEvents s)
      = match lastScroll es with
        | Some y => if gtb y 500 then ("1", "auto") else ("0", "none")
        | None => ("0", "none")
        end
  | None => scrollTopBtn d = None
  end.
Proof.
  induction es as [|e es IH] using rev_ind.
  { unfold initScrollTop. simpl.
    destruct (scrollTopBtn d) as [s|] eqn:E; simpl; [|by rewrite E].
    split; [by exists s|done]. }
  rewrite run_snoc, lastScroll_snoc. revert IH.
  generalize (run querySelector es (initScrollTop d)). intros d'.
  destruct e as [i| |inMenu inToggle|y|]; simpl.
  - unfold linkClick. destruct (navLinks d' !! i); [|done].
    destruct (querySelector _); try done. simpl.
    by destruct (contains "active" (navMenu d')).
  - done.
  - unfold documentClick. by destruct (negb inMenu && negb inToggle).
  - unfold scroll, activeNavOnScroll, scrollTopScroll, headerScroll.
    destruct (gtb y 50); simpl;
      destruct (scrollTopBtn d') eqn:E; simpl; rewrite ?E; try done;
      (intros (? & ? & _); by destruct (gtb y 500)).
  - unfold scrollTopClick.
    destruct (scrollTopBtn d') eqn:E; simpl; by rewrite ?E.
Qed.

(** *** The resume button *)

(** X9: after [initResumeButton] and any hovering and clicking, the label
    of the button is [Show Resume] while the pointer is over it and the
    text it had when the function ran otherwise, so leaving restores what
    entering replaced; a click leaves the label and opens the resume in a
    new tab, once for every click. *)
Theorem resume_label_follows_the_pointer
    (text : string) (es : list ResumeEvent) :
  resumeRun es (initResumeButton text)
  = mkResume (if hovering es then "Show Resume" else text) text
             (replicate (clicks es) ("assets/resume.pdf", "_blank")).
Proof.
  induction es as [|e es IH] using rev_ind; [done|].
  unfold resumeRun in *. rewrite foldl_snoc, IH.
  unfold hovering, clicks. rewrite !filter_app, !filter_cons, !filter_nil.
  destruct e; repeat case_decide; try done; simpl.
  - by rewrite last_snoc, app_nil_r.
  - by rewrite last_snoc, app_nil_r.
  - rewrite app_nil_r, length_app. simpl.
    by rewrite Nat.add_1_r, replicate_S_end.
Qed.

(** *** The scroll animations *)

Lemma observerCallback_snoc entries e els :
  observerCallback (entries ++ [e]) els
  = if snd e then alter (add "visible") (fst e) (observerCallback entries els)
    else observerCallback entries els.
Proof. unfold observerCallback. by rewrite foldl_snoc. Qed.

Lemma observerCallback_lookup entries els i cl :
  els !! i = Some cl →
  ∃ cl', observerCallback entries els !! i = Some cl' ∧
         ∀ c, c ∈ cl' ↔ c ∈ cl ∨ (c = "visible" ∧ (i, true) ∈ entries).
Proof.
  intros Hi. induction entries as [|[j b] entries IH] using rev_ind.
  { exists cl. split; [done|]. intros c. split; [tauto|].
    intros [?|[_ H]]; [done|]. by apply elem_of_nil in H. }
  destruct IH as (cl' & Hcl' & Hc). rewrite observerCallback_snoc. simpl.
  destruct b.
  - destruct (decide (j = i)) as [->|Hne].
    + exists (add "visible" cl'). rewrite list_lookup_alter_eq, Hcl'.
      split; [done|]. intros c. rewrite elem_of_add, Hc, elem_of_app.
      rewrite list_elem_of_singleton. tauto.
    + exists cl'. rewrite list_lookup_alter_ne by done. split; [done|].
      intros c. rewrite Hc, elem_of_app, list_elem_of_singleton.
      split; [tauto|]. intros [?|[? [?|Heq]]]; [tauto..|]. congruence.
  - exists cl'. split; [done|]. intros c.
    rewrite Hc, elem_of_app, list_elem_of_singleton.
    split; [tauto|]. intros [?|[? [?|Heq]]]; [tauto..|]. congruence.
Qed.

(** X10: every element that [initScrollAnimations] selects carries the
    class [fade-in] from then on, and carries [visible] exactly when it
    carried it before or the observer has reported it as intersecting at
    least once: the class is never taken away again. Its other classes
    stay. *)
Theorem visible_once_seen
    (reports : list (list (nat * bool))) (els : list (list string))
    (i : nat) (cl : list string) :
  els !! i = Some cl →
  ∃ cl', observe reports (initScrollAnimations els) !! i = Some cl' ∧
    contains "fade-in" cl' = true ∧
    (contains "visible" cl' = true ↔
     contains "visible" cl = true ∨
     ∃ entries, entries ∈ reports ∧ (i, true) ∈ entries) ∧
    (∀ c, c ≠ "fade-in" → c ≠ "visible" → contains c cl' = contains c cl).
Proof.
  intros Hi.
  assert (∃ cl', observe reports (initScrollAnimations els) !! i = Some cl' ∧
            ∀ c, c ∈ cl' ↔
                 c ∈ cl ∨ c = "fade-in" ∨
                 (c = "visible" ∧ ∃ entries, entries ∈ reports ∧
                                             (i, true) ∈ entries))
    as (cl' & Hcl' & Hc).
  { induction reports as [|entries reports IH] using rev_ind.
    - exists (add "fade-in" cl). unfold initScrollAnimations. simpl.
      rewrite list_lookup_fmap, Hi. split; [done|]. intros c.
      rewrite elem_of_add. split; [tauto|].
      intros [?|[?|[_ (en & H & _)]]]; [tauto..|]. by apply elem_of_nil in H.
    - destruct IH as (cl1 & Hcl1 & Hc1). unfold observe in *.
      rewrite foldl_snoc.
      destruct (observerCallback_lookup entries _ _ _ Hcl1) as (cl2 & -> & Hc2).
      exists cl2. split; [done|]. intros c. rewrite Hc2, Hc1.
      setoid_rewrite elem_of_app. setoid_rewrite list_elem_of_singleton.
      split.
      + intros [[?|[?|[? (en & ? & ?)]]]|[? ?]]; eauto 8.
      + intros [?|[?|[? (en & [?| ->] & ?)]]]; eauto 8. }
  exists cl'. split; [done|]. split; [apply contains_true, Hc; auto|]. split.
  - rewrite !contains_true, Hc. split; [|tauto].
    intros [?|[?|[_ ?]]]; [tauto|done|tauto].
  - intros c H1 H2. apply contains_ext. rewrite Hc. tauto.
Qed.

(** *** [debounce] *)

Section Debounce.

Context {A : Type}.
Implicit Types (s : Debounced A) (es : list (DebounceEvent A)).

Lemma debounceRun_runs es :
  ∀ s slot, settled s slot →
    ∃ slot', settled (debounceRun es s) slot' ∧
             calls (debounceRun es s) = calls s ++ runs (nextTimer s) slot es.
Proof.
  induction es as [|e es IH]; intros s slot Hs.
  { exists slot. simpl. by rewrite app_nil_r. }
  destruct e as [a|id]; simpl.
  - (* a call: the pending timer is cleared and a new one is set *)
    destruct (IH (executedFunction a s) (Some a)) as (slot' & H1 & H2).
    { exists (nextTimer s). simpl. split; [|done]. destruct slot as [b|].
      - destruct Hs as (id & -> & -> & _). simpl.
        by rewrite filter_cons_False by (intros H; by apply H).
      - simpl in Hs. rewrite Hs. by destruct (timeout s). }
    exists slot'. split; [done|]. by rewrite H2.
  - (* a timer is due *)
    destruct slot as [a|].
    + destruct Hs as (id' & Hp & Ht & Hn). case_decide as Hid.
      * assert (id = id') as -> by lia.
        destruct (IH (later id' s) None) as (slot' & H1 & H2).
        { unfold later. rewrite Hp, Ht. simpl. rewrite decide_True by done.
          simpl. by rewrite filter_cons_False by (intros H; by apply H). }
        exists slot'. split; [done|]. rewrite H2. unfold later.
        rewrite Hp. simpl. rewrite decide_True by done. simpl.
        by rewrite <- app_assoc.
      * assert (later id s = s) as ->.
        { unfold later. rewrite Hp. simpl.
          rewrite decide_False by (intros ->; lia). done. }
        apply (IH s (Some a)). by exists id'.
    + simpl in Hs. assert (later id s = s) as ->.
      { unfold later. by rewrite Hs. }
      by apply (IH s None).
Qed.

Lemma runs_sublist es :
  ∀ n slot, runs n slot es `sublist_of` option_list slot ++ callsOf es.
Proof.
  induction es as [|e es IH]; intros n slot; [apply sublist_nil_l|].
  destruct e as [a|id]; simpl.
  - apply sublist_inserts_l. apply (IH (S n) (Some a)).
  - destruct slot as [a|]; [|apply (IH n None)].
    case_decide; [|apply (IH n (Some a))].
    simpl. apply sublist_skip. apply (IH n None).
Qed.

(** X11: for a function made by [debounce], over any calls and timers
    coming due: at most one timer is pending at any time, and it belongs
    to the last call; [func] runs with the arguments of a call exactly
    when the timer of that call comes due before the next call is made,
    so a call that another call follows first never runs; and the runs of
    [func] are, in their order, among the calls, each call running at
    most once. *)
Theorem debounce_runs_the_last_call_only es :
  (length (pending (debounceRun es debounce)) ≤ 1)%nat ∧
  (∀ id a, (id, a) ∈ pending (debounceRun es debounce) →
           last (callsOf es) = Some a ∧
           timeout (debounceRun es debounce) = Some id) ∧
  calls (debounceRun es debounce) = runs 0 None es ∧
  calls (debounceRun es debounce) `sublist_of` callsOf es.
Proof.
  destruct (debounceRun_runs es debounce None) as (slot & Hs & Hc); [done|].
  simpl in Hc. split; [|split; [|split]].
  - destruct slot; simpl in Hs.
    + destruct Hs as (id & -> & _). simpl. lia.
    + rewrite Hs. simpl. lia.
  - intros id a Hin.
    assert (∀ es' s slot', settled s slot' →
              (∀ b, slot' = Some b → last (callsOf es') = Some b) →
              ∀ e, ∃ slot'',
                settled (debounceHandle e s) slot'' ∧
                (∀ b, slot'' = Some b →
                      last (callsOf (es' ++ [e])) = Some b)) as Hstep.
    { intros es' s slot' Hs' Hl e. unfold callsOf. rewrite omap_app.
      destruct e as [b|id0]; simpl.
      - exists (Some b). split.
        + exists (nextTimer s). simpl. split; [|done].
          destruct slot' as [c|]; simpl in Hs'.
          * destruct Hs' as (i0 & -> & -> & _). simpl.
            by rewrite filter_cons_False by (intros H; by apply H).
          * rewrite Hs'. by destruct (timeout s).
        + intros ? [= <-]. apply last_snoc.
      - rewrite app_nil_r. destruct slot' as [c|]; simpl in Hs'.
        + destruct Hs' as (i0 & Hp & Ht & Hn).
          destruct (decide (i0 = id0)) as [->|Hne].
          * exists None. split; [|done]. unfold later. rewrite Hp, Ht.
            simpl. rewrite decide_True by done. simpl.
            by rewrite filter_cons_False by (intros H; by apply H).
          * exists (Some c). split; [|done]. unfold later. rewrite Hp.
            simpl. rewrite decide_False by done. by exists i0.
        + exists None. split; [|done]. unfold later. by rewrite Hs'. }
    assert (∃ slot', settled (debounceRun es debounce) slot' ∧
                     ∀ b, slot' = Some b → last (callsOf es) = Some b)
      as (slot' & Hs' & Hl).
    { clear Hin Hs Hc slot. induction es as [|e es IH] using rev_ind.
      - exists None. by split.
      - destruct IH as (slot0 & H1 & H2). unfold debounceRun in *.
        rewrite foldl_snoc. by apply (Hstep es _ slot0). }
    destruct slot' as [b|]; simpl in Hs'.
    + destruct Hs' as (i0 & Hp & Ht & _). rewrite Hp in Hin.
      apply list_elem_of_singleton in Hin as [= -> ->]. split; [by apply Hl|done].
    + rewrite Hs' in Hin. by apply elem_of_nil in Hin.
  - done.
  - rewrite Hc. apply (runs_sublist es 0 None).
Qed.

End Debounce.

(** *** The timers of the message box *)

Lemma delete_snoc {B} (l : list B) (x : B) (i : nat) :
  (i < length l)%nat → delete i (l ++ [x]) = delete i l ++ [x].
Proof.
  revert i. induction l as [|y l IH]; intros i Hi; simpl in *; [lia|].
  destruct i as [|i]; [done|]. simpl. f_equal. apply IH. lia.
Qed.

(** X12: [showFormMessage] sets a timer of its own and clears none. When
    a timer of an earlier message is still pending and comes due, it
    hides the box although the new message has just been shown, and the
    timer of the new message is still pending then. *)
Theorem older_timer_hides_newer_message
    (text type : string) (p : Client.Page) (i : nat) :
  is_Some (Client.formMessage p) →
  (i < length (Client.timers p))%nat →
  Client.timers (Client.showFormMessage text type p)
  = Client.timers p ++ [Client.mkTimer Client.HideFormMessage 5000] ∧
  Client.displayed (Client.showFormMessage text type p) = Some text ∧
  Client.displayed (timerDue i (Client.showFormMessage text type p)) = None ∧
  Client.timers (timerDue i (Client.showFormMessage text type p))
  = delete i (Client.timers p) ++ [Client.mkTimer Client.HideFormMessage 5000].
Proof.
  intros [m Hm] Hi. unfold Client.showFormMessage. rewrite Hm.
  split; [done|]. split; [done|].
  destruct (lookup_lt_is_Some_2 (Client.timers p) i Hi) as [[[] dl] Ht].
  unfold timerDue. simpl.
  rewrite lookup_app_l, Ht by done. simpl.
  split; [done|]. by apply delete_snoc.
Qed.

(** *** Instances on the sample documents *)

Lemma link_click_activates_only_that_link_witness :
  (∀ top, sampleQuery (stringify (Some "#contact")) = Found top →
     scrolls (linkClick sampleQuery 1 sampleDoc)
     = scrolls sampleDoc ++ [(top - headerHeight sampleDoc)%Z] ∧
     contains "active" (navMenu (linkClick sampleQuery 1 sampleDoc)) = false ∧
     (contains "active" (navToggle (linkClick sampleQuery 1 sampleDoc)) = true →
      contains "active" (navToggle sampleDoc) = true ∧
      contains "active" (navMenu sampleDoc) = false) ∧
     length (navLinks (linkClick sampleQuery 1 sampleDoc))
     = length (navLinks sampleDoc) ∧
     ∀ j l, navLinks sampleDoc !! j = Some l →
       ∃ l', navLinks (linkClick sampleQuery 1 sampleDoc) !! j = Some l' ∧
             href l' = href l ∧
             (contains "active" (linkClasses l') = true ↔ j = 1%nat)) ∧
  (sampleQuery (stringify (Some "#contact")) = Null ∨
   sampleQuery (stringify (Some "#contact")) = Threw →
   linkClick sampleQuery 1 sampleDoc = sampleDoc).
Proof.
  apply (link_click_activates_only_that_link sampleQuery 1 sampleDoc
           (mkLink (Some "#contact") ["nav-link"])).
  reflexivity.
Defined.

Lemma menu_and_toggle_stay_in_step_witness :
  inStep (run sampleQuery
              [ToggleClick; Scroll 700; LinkClick 1; ToggleClick;
               DocumentClick false false; ScrollTopClick]
              sampleDoc).
Proof.
  apply (menu_and_toggle_stay_in_step sampleQuery). reflexivity.
Defined.

Lemma visible_once_seen_witness :
  ∃ cl', observe sampleReports (initScrollAnimations sampleElements) !! 1%nat
         = Some cl' ∧
    contains "fade-in" cl' = true ∧
    (contains "visible" cl' = true ↔
     contains "visible" ["info-item"] = true ∨
     ∃ entries, entries ∈ sampleReports ∧ (1%nat, true) ∈ entries) ∧
    (∀ c, c ≠ "fade-in" → c ≠ "visible" →
          contains c cl' = contains c ["info-item"]).
Proof.
  apply (visible_once_seen sampleReports sampleElements 1 ["info-item"]).
  reflexivity.
Defined.

Lemma older_timer_hides_newer_message_witness :
  Client.timers (Client.showFormMessage "Message sent" "success" pageWithOldTimer)
  = Client.timers pageWithOldTimer
    ++ [Client.mkTimer Client.HideFormMessage 5000] ∧
  Client.displayed
    (Client.showFormMessage "Message sent" "success" pageWithOldTimer)
  = Some "Message sent" ∧
  Client.displayed
    (timerDue 0 (Client.showFormMessage "Message sent" "success" pageWithOldTimer))
  = None ∧
  Client.timers
    (timerDue 0 (Client.showFormMessage "Message sent" "success" pageWithOldTimer))
  = delete 0%nat (Client.timers pageWithOldTimer)
    ++ [Client.mkTimer Client.HideFormMessage 5000].
Proof.
  apply (older_timer_hides_newer_message "Message sent" "success"
           pageWithOldTimer 0).
  - eexists. reflexivity.
  - simpl. lia.
Defined.

End SiteFacts.

(** ** The validator chains of the route *)
Module ValidatorFacts.
Import Server.

Section Chains.

Variable isEmail : string → bool.
Variable normalizeEmail : string → string.

Local Abbreviation sanitize := (sanitize isEmail normalizeEmail).
Local Abbreviation validationResult := (validationResult isEmail normalizeEmail).

Lemma check_nil f ok : check f ok = [] ↔ ok = true.
Proof. unfold check. by destruct ok. Qed.

Lemma isLength_bounds min max s :
  isLength min max s = true ↔ (min ≤ String.length s ≤ max)%nat.
Proof.
  unfold isLength. rewrite andb_true_iff, !Nat.leb_le. tauto.
Qed.

(** X13: what the handler reads from [req.body] once the chains have
    reported no error: [name], [subject] and [message] carry no white
    space at either end and have 2 to 100, 5 to 200 and 10 to 2000
    characters, counted after trimming; [email] is what [normalizeEmail]
    made of an address that [isEmail] accepted (the address itself is not
    trimmed). *)
Theorem accepted_fields_are_trimmed_and_bounded (b : Body) :
  validationResult b = [] →
  let s := destructure (sanitize b) in
  (Js.trim (name s) = name s ∧ (2 ≤ String.length (name s) ≤ 100)%nat) ∧
  (Js.trim (subject s) = subject s ∧
   (5 ≤ String.length (subject s) ≤ 200)%nat) ∧
  (Js.trim (message s) = message s ∧
   (10 ≤ String.length (message s) ≤ 2000)%nat) ∧
  isEmail (toString (b !! "email")) = true ∧
  email s = normalizeEmail (toString (b !! "email")).
Proof.
  intros Hv s.
  rewrite ServerFacts.validationResult_eq in Hv.
  apply app_eq_nil in Hv as [H1 Hv]. apply app_eq_nil in Hv as [H2 Hv].
  apply app_eq_nil in Hv as [H3 H4].
  apply check_nil in H1, H2, H3, H4.
  apply isLength_bounds in H1, H3, H4.
  destruct (ServerFacts.sanitize_lookups isEmail normalizeEmail b)
    as (E1 & E2 & E3 & E4).
  unfold s, destructure. simpl. rewrite E1, E2, E3, E4. simpl.
  by rewrite !JsFacts.trim_idem.
Qed.

(** X14: the chains read the four fields only, and [name], [subject] and
    [message] only up to the white space around them: two payloads that
    agree on [email] and, after trimming, on the three other fields (a
    missing field counting as the empty text) get the same list of errors
    and hand the same four values to the handler, whatever else they
    contain. *)
Theorem validation_reads_trimmed_fields_only (b1 b2 : Body) :
  (∀ f, f ∈ ["name"; "subject"; "message"] →
        Js.trim (toString (b1 !! f)) = Js.trim (toString (b2 !! f))) →
  toString (b1 !! "email") = toString (b2 !! "email") →
  validationResult b1 = validationResult b2 ∧
  destructure (sanitize b1) = destructure (sanitize b2).
Proof.
  intros Hf He.
  assert (Js.trim (toString (b1 !! "name")) = Js.trim (toString (b2 !! "name")))
    as Hn by (apply Hf; set_unfold; tauto).
  assert (Js.trim (toString (b1 !! "subject"))
          = Js.trim (toString (b2 !! "subject")))
    as Hs by (apply Hf; set_unfold; tauto).
  assert (Js.trim (toString (b1 !! "message"))
          = Js.trim (toString (b2 !! "message")))
    as Hm by (apply Hf; set_unfold; tauto).
  split.
  - by rewrite !ServerFacts.validationResult_eq, Hn, Hs, Hm, He.
  - destruct (ServerFacts.sanitize_lookups isEmail normalizeEmail b1)
      as (E1 & E2 & E3 & E4).
    destruct (ServerFacts.sanitize_lookups isEmail normalizeEmail b2)
      as (F1 & F2 & F3 & F4).
    unfold destructure.
    rewrite E1, E2, E3, E4, F1, F2, F3, F4. simpl.
    by rewrite Hn, Hs, Hm, He.
Qed.

End Chains.

Lemma accepted_fields_are_trimmed_and_bounded_witness :
  let s := destructure
             (sanitize Sample.isEmail Sample.normalizeEmail Sample.paddedBody) in
  (Js.trim (name s) = name s ∧ (2 ≤ String.length (name s) ≤ 100)%nat) ∧
  (Js.trim (subject s) = subject s ∧
   (5 ≤ String.length (subject s) ≤ 200)%nat) ∧
  (Js.trim (message s) = message s ∧
   (10 ≤ String.length (message s) ≤ 2000)%nat) ∧
  Sample.isEmail (toString (Sample.paddedBody !! "email")) = true ∧
  email s = Sample.normalizeEmail (toString (Sample.paddedBody !! "email")).
Proof.
  apply (accepted_fields_are_trimmed_and_bounded Sample.isEmail
           Sample.normalizeEmail Sample.paddedBody).
  vm_compute. reflexivity.
Defined.

Lemma validation_reads_trimmed_fields_only_witness :
  validationResult Sample.isEmail Sample.normalizeEmail Sample.paddedBody
  = validationResult Sample.isEmail Sample.normalizeEmail Sample.validBody ∧
  destructure (sanitize Sample.isEmail Sample.normalizeEmail Sample.paddedBody)
  = destructure (sanitize Sample.isEmail Sample.normalizeEmail Sample.validBody).
Proof.
  apply (validation_reads_trimmed_fields_only Sample.isEmail
           Sample.normalizeEmail Sample.paddedBody Sample.validBody).
  - intros f Hf. set_unfold. destruct Hf as [->|[->|[->|[]]]]; reflexivity.
  - reflexivity.
Defined.

(** *** From the form to the handler *)

Section Transport.

Variable isEmail : string → bool.
Variable normalizeEmail : string → string.

(** [req.body]: what [express.json()] reads from the text that
    [JSON.stringify(formData)] wrote. *)
Variable received : Client.Fields string → Body.

Local Abbreviation sanitize := (sanitize isEmail normalizeEmail).
Local Abbreviation validationResult := (validationResult isEmail normalizeEmail).

(** X15: when the submit handler of the page sends the form and the
    server receives the four values as the page wrote them, the values
    are non-empty and already trimmed, so the trimming of the chains
    changes nothing: the handler reads [name], [subject] and [message] as
    the page sent them and [email] as [normalizeEmail] returns it, and
    the chains check the lengths of the values as sent. *)
Theorem sent_fields_reach_the_handler_as_sent
    (p : Client.Page) (k : Client.Suspended) :
  (∀ d, received d !! "name" = Some (Client.name d) ∧
        received d !! "email" = Some (Client.email d) ∧
        received d !! "subject" = Some (Client.subject d) ∧
        received d !! "message" = Some (Client.message d)) →
  snd (Client.onSubmit p) = Some k →
  let d := Client.readForm p in
  let s := destructure (sanitize (received d)) in
  (Client.name d ≠ "" ∧ Client.email d ≠ "" ∧
   Client.subject d ≠ "" ∧ Client.message d ≠ "") ∧
  (name s = Client.name d ∧ subject s = Client.subject d ∧
   message s = Client.message d ∧ email s = normalizeEmail (Client.email d)) ∧
  validationResult (received d)
  = check "name" (isLength 2 100 (Client.name d)) ++
    check "email" (isEmail (Client.email d)) ++
    check "subject" (isLength 5 200 (Client.subject d)) ++
    check "message" (isLength 10 2000 (Client.message d)).
Proof.
  intros Hr Hk d s. destruct (Hr d) as (R1 & R2 & R3 & R4).
  assert (Js.trim (Client.name d) = Client.name d ∧
          Js.trim (Client.subject d) = Client.subject d ∧
          Js.trim (Client.message d) = Client.message d) as (T1 & T2 & T3).
  { unfold d, Client.readForm. simpl. by rewrite !JsFacts.trim_idem. }
  assert (Client.someFieldEmpty d = false) as E.
  { unfold Client.onSubmit in Hk. fold d in Hk.
    by destruct (Client.someFieldEmpty d). }
  clearbody d. split; [|split].
  - unfold Client.someFieldEmpty in E.
    rewrite !orb_false_iff, !JsFacts.isEmpty_false in E. tauto.
  - destruct (ServerFacts.sanitize_lookups isEmail normalizeEmail (received d))
      as (E1 & E2 & E3 & E4).
    unfold s, destructure. rewrite E1, E2, E3, E4, R1, R2, R3, R4. simpl.
    by rewrite T1, T2, T3.
  - rewrite ServerFacts.validationResult_eq, R1, R2, R3, R4. simpl.
    by rewrite T1, T2, T3.
Qed.

End Transport.

Lemma sent_fields_reach_the_handler_as_sent_witness :
  let d := Client.readForm Client.filledPage in
  let s := destructure (sanitize Sample.isEmail Sample.normalizeEmail
                                 (Sample.received d)) in
  (Client.name d ≠ "" ∧ Client.email d ≠ "" ∧
   Client.subject d ≠ "" ∧ Client.message d ≠ "") ∧
  (name s = Client.name d ∧ subject s = Client.subject d ∧
   message s = Client.message d ∧
   email s = Sample.normalizeEmail (Client.email d)) ∧
  validationResult Sample.isEmail Sample.normalizeEmail (Sample.received d)
  = check "name" (isLength 2 100 (Client.name d)) ++
    check "email" (Sample.isEmail (Client.email d)) ++
    check "subject" (isLength 5 200 (Client.subject d)) ++
    check "message" (isLength 10 2000 (Client.message d)).
Proof.
  apply (sent_fields_reach_the_handler_as_sent Sample.isEmail
           Sample.normalizeEmail Sample.received Client.filledPage
           (Client.mkSuspended "Send Message")).
  - intros d. repeat split; reflexivity.
  - vm_compute. reflexivity.
Defined.

End ValidatorFacts.
